(** * ChronusQ: the Fock build of a single Slater determinant

    A shallow embedding of

    - [MatAdd], the generic template and its specialisations,
    - [SingleSlater<T>::formGD] and [SingleSlater<T>::formFock],
    - [RealTime<_SSTyp,T>::formFock] and [valarray2array],
    - the message of [CQMiscOptions] about the memory pool,

    together with the properties of the Fock build that the specification
    states about them, and further properties read off the code.

    Numbers.  [double] is modelled by the canonical rationals [Qc] with exact
    arithmetic and [dcomplex] by pairs of them; rounding, NaN and signed
    zeros are outside the model, and "bit-identical" reads as Leibniz
    equality of buffers.

    Memory.  A buffer ([T*] with its extent) is a [list]; reading or writing
    outside the extent is undefined behaviour and ends the run.

    Threads.  The parallel region of [MatAdd] is modelled by the number of
    iterations of the column loop that each thread of the team runs, the
    threads running one after the other.  The Fock build is verified for a
    team of one thread.

    Collaborators.  The contraction engine, the allocator, the helpers
    [SetMatRE], [SetMatIM], [GetMatRE] and the field descriptors are not
    among the files at hand; each is modelled from the specification, under
    a comment that says so. *)

From Stdlib Require Import ZArith QArith Qcanon Qcabs Ascii String Lia.
From stdpp Require Import base tactics option numbers list strings.

Local Open Scope nat_scope.

(** ** Outcomes of a run *)

Inductive failure : Type :=
  | AssertionFailed      (* an [assert] was violated: the process aborts *)
  | UndefinedBehaviour   (* out-of-extent access, signed overflow *)
  | AllocationFailed.    (* the memory pool is exhausted *)

Inductive result (A : Type) : Type :=
  | Ok (a : A)
  | Halt (e : failure).
Arguments Ok {A} a.
Arguments Halt {A} e.

Definition rbind {A B} (r : result A) (k : A → result B) : result B :=
  match r with
  | Ok a => k a
  | Halt e => Halt e
  end.

#[export] Instance result_ret : MRet result := @Ok.
#[export] Instance result_bind : MBind result := λ A B k r, rbind r k.

Definition of_option {A} (o : option A) : result A :=
  match o with
  | Some a => Ok a
  | None => Halt UndefinedBehaviour
  end.

(** ** Counted loops *)

(** [for (k = start; k < start + count; k++) s = body k s]. *)
Fixpoint for_loop {St} (body : nat → St → result St) (start count : nat)
  (s : St) : result St :=
  match count with
  | O => Ok s
  | S n => s' ← body start s; for_loop body (S start) n s'
  end.

Definition INT_MAX : Z := 2147483647.

(** [for (int k = 0; k < n; k++)] against an unsigned bound [n]: the counter
    is converted to the bound's type for the test, so a bound above
    [INT_MAX] makes the increment overflow. *)
Definition for_int {St} (n : nat) (body : nat → St → result St) (s : St)
  : result St :=
  if decide (Z.of_nat n ≤ INT_MAX)%Z then for_loop body 0 n s
  else Halt UndefinedBehaviour.

(** [for (auto k = 0ul; k < n; k++)]. *)
Definition for_ulong {St} (n : nat) (body : nat → St → result St) (s : St)
  : result St :=
  for_loop body 0 n s.

(** ** Scalars *)

Definition double : Type := Qc.
Definition dcomplex : Type := (Qc * Qc)%type.

(** The operations the templates use on their scalar parameter [T], with the
    arithmetic facts shared by [double] and [dcomplex]. *)
Class Scalar (T : Type) : Type := {
  is_double : bool;              (* std::is_same<double,T>::value *)
  of_double : double → T;        (* T(x) *)
  sc_add : T → T → T;
  sc_mul : T → T → T;
  re_part : T → double;          (* std::real *)
  im_part : T → double;          (* std::imag *)
  with_re : double → T → T;      (* the value with its real part replaced *)
  with_im : double → T → T;      (* ... its imaginary part replaced *)
  sc_add_0_l : ∀ x, sc_add (of_double 0%Qc) x = x;
  sc_mul_0_l : ∀ x, sc_mul (of_double 0%Qc) x = of_double 0%Qc;
  sc_mul_0_r : ∀ x, sc_mul x (of_double 0%Qc) = of_double 0%Qc;
  sc_mul_1_l : ∀ x, sc_mul (of_double 1%Qc) x = x;
  re_add : ∀ x y, re_part (sc_add x y) = (re_part x + re_part y)%Qc;
  re_of_double : ∀ d, re_part (of_double d) = d;
}.

Definition sc_zero {T} `{Scalar T} : T := of_double 0%Qc.

#[export] Program Instance double_Scalar : Scalar double := {|
  is_double := true;
  of_double := λ x, x;
  sc_add := Qcplus;
  sc_mul := Qcmult;
  re_part := λ x, x;
  im_part := λ _, 0%Qc;
  with_re := λ r _, r;
  with_im := λ _ x, x;
|}.
Next Obligation. intros; apply Qcplus_0_l. Qed.
Next Obligation. intros; apply Qcmult_0_l. Qed.
Next Obligation. intros; apply Qcmult_0_r. Qed.
Next Obligation. intros; apply Qcmult_1_l. Qed.
Next Obligation. reflexivity. Qed.
Next Obligation. reflexivity. Qed.

Definition cplx_add (x y : dcomplex) : dcomplex :=
  (x.1 + y.1, x.2 + y.2)%Qc.
Definition cplx_mul (x y : dcomplex) : dcomplex :=
  (x.1 * y.1 - x.2 * y.2, x.1 * y.2 + x.2 * y.1)%Qc.

#[export] Program Instance dcomplex_Scalar : Scalar dcomplex := {|
  is_double := false;
  of_double := λ x, (x, 0%Qc);
  sc_add := cplx_add;
  sc_mul := cplx_mul;
  re_part := fst;
  im_part := snd;
  with_re := λ r x, (r, x.2);
  with_im := λ i x, (x.1, i);
|}.
Next Obligation. intros [a b]; unfold cplx_add; simpl; f_equal; ring. Qed.
Next Obligation. intros [a b]; unfold cplx_mul; simpl; f_equal; ring. Qed.
Next Obligation. intros [a b]; unfold cplx_mul; simpl; f_equal; ring. Qed.
Next Obligation. intros [a b]; unfold cplx_mul; simpl; f_equal; ring. Qed.
Next Obligation. reflexivity. Qed.
Next Obligation. reflexivity. Qed.

(** Implicit conversion of an operand to the scalar type the sum is formed
    in: the identity, or the promotion of a real to [T]. *)
Class Promote (F T : Type) : Type := promote : F → T.
Definition promote_self (T : Type) : Promote T T := λ x, x.
Definition promote_real (T : Type) `{Scalar T} : Promote double T := of_double.

(** ** MatAdd: the generic template *)

(** An input operand of [MatAdd]: a buffer of its own, or the very pointer
    that is also passed as [C] (the in-place calls of the Fock build). *)
Inductive operand (F : Type) : Type :=
  | Buffer (l : list F)
  | SameAsC.
Arguments Buffer {F} l.
Arguments SameAsC {F}.

(** The thread-private cursors [locA], [locB], [locC], as offsets from the
    base pointers [A], [B], [C]. *)
Record cursors : Type := Cursors { locA : nat; locB : nat; locC : nat }.

(** How [#pragma omp for] shares the iterations of a loop among the threads
    of the team: the number of iterations each thread runs, thread by
    thread.  The threads are run one after the other. *)
Definition worksharing : Type := nat → list nat.

(** One thread only (or a build in which the pragmas are ignored). *)
Definition serial : worksharing := λ N, [N].

(** Two threads, each given a contiguous half of the iterations. *)
Definition two_threads : worksharing := λ N, [N - N / 2; N / 2].

Section MatAdd.
Context {F1 F2 S1 S2 T : Type} `{Scalar T}.
Context {PA : Promote F1 T} {PB : Promote F2 T}.
Context {PS1 : Promote S1 T} {PS2 : Promote S2 T}.

(** [X[k]] read while the destination holds [C]. *)
Definition operand_get {F} {PX : Promote F T} (X : operand F) (C : list T)
  (k : nat) : option T :=
  match X with
  | Buffer l => promote <$> l !! k
  | SameAsC => C !! k
  end.

(** [ALPHA * a + BETA * b] in the type of the destination. *)
Definition axpby (ALPHA : S1) (a : T) (BETA : S2) (b : T) : T :=
  sc_add (sc_mul (promote ALPHA) a) (sc_mul (promote BETA) b).

(** [locC[i] = ALPHA * locA[i] + BETA * locB[i];] *)
Definition MatAdd_store (ALPHA : S1) (A : operand F1) (BETA : S2)
  (B : operand F2) (loc : cursors) (i : nat) (C : list T)
  : result (list T) :=
  a ← of_option (operand_get A C (locA loc + i));
  b ← of_option (operand_get B C (locB loc + i));
  if decide (locC loc + i < length C)
  then Ok (<[locC loc + i := axpby ALPHA a BETA b]> C)
  else Halt UndefinedBehaviour.

(** The body of the loop over [j]: the loop over [i], then the three
    cursors move one column on.  The body does not look at [j]. *)
Definition MatAdd_column (M : nat) (ALPHA : S1) (A : operand F1)
  (LDA : nat) (BETA : S2) (B : operand F2) (LDB LDC : nat) (j : nat)
  (st : cursors * list T) : result (cursors * list T) :=
  C' ← for_int M (MatAdd_store ALPHA A BETA B st.1) st.2;
  Ok (Cursors (locA st.1 + LDA) (locB st.1 + LDB) (locC st.1 + LDC), C').

(** What one thread of the team does: its cursors start at the base
    pointers, then it runs the [count] iterations it was given. *)
Definition MatAdd_thread (M : nat) (ALPHA : S1) (A : operand F1)
  (LDA : nat) (BETA : S2) (B : operand F2) (LDB LDC : nat)
  (C : list T) (count : nat) : result (list T) :=
  st ← for_loop (MatAdd_column M ALPHA A LDA BETA B LDB LDC) 0 count
         (Cursors 0 0 0, C);
  Ok st.2.

Fixpoint MatAdd_team (M : nat) (ALPHA : S1) (A : operand F1)
  (LDA : nat) (BETA : S2) (B : operand F2) (LDB LDC : nat)
  (C : list T) (team : list nat) : result (list T) :=
  match team with
  | [] => Ok C
  | count :: rest =>
      C' ← MatAdd_thread M ALPHA A LDA BETA B LDB LDC C count;
      MatAdd_team M ALPHA A LDA BETA B LDB LDC C' rest
  end.

Definition MatAdd (omp : worksharing) (TRANSA TRANSB : ascii) (M N : nat)
  (ALPHA : S1) (A : operand F1) (LDA : nat) (BETA : S2) (B : operand F2)
  (LDB : nat) (C : list T) (LDC : nat) : result (list T) :=
  if decide (TRANSA = "N"%char ∧ TRANSB = "N"%char) then
    if decide (Z.of_nat N ≤ INT_MAX)%Z then
      MatAdd_team M ALPHA A LDA BETA B LDB LDC C (omp N)
    else Halt UndefinedBehaviour
  else Halt AssertionFailed.

(** The elements [(i,j)], [i < M], [j < N], of a column-major matrix with
    leading dimension [LD] lie in a buffer of [len] elements. *)
Definition in_extent (M N LD len : nat) : Prop :=
  ∀ i j, i < M → j < N → i + j * LD < len.

(** An input operand can be read as an [M]×[N] matrix while [C] is being
    written with leading dimension [LDC]. *)
Definition readable {F} (M N LD LDC : nat) (X : operand F) : Prop :=
  match X with
  | Buffer l => in_extent M N LD (length l)
  | SameAsC => LD = LDC
  end.

(** [ALPHA*A[i + j*LDA] + BETA*B[i + j*LDB]] on the operands as they are
    when [MatAdd] is entered with the destination holding [C0]. *)
Definition MatAdd_value (LDA LDB : nat) (ALPHA : S1) (BETA : S2)
  (A : operand F1) (B : operand F2) (C0 : list T) (i j : nat) : option T :=
  a ← operand_get A C0 (i + j * LDA);
  b ← operand_get B C0 (i + j * LDB);
  Some (axpby ALPHA a BETA b).

(** Element [(i',j')] is stored before the loops reach [(i,j)]. *)
Definition stored (j i j' i' : nat) : Prop := j' < j ∨ (j' = j ∧ i' < i).

(** The destination when one thread has reached [(i,j)]: the elements
    stored so far hold their sums, everything else is as on entry. *)
Definition MatAdd_inv (M N LDA LDB LDC : nat) (ALPHA : S1) (BETA : S2)
  (A : operand F1) (B : operand F2) (C0 : list T) (j i : nat)
  (C : list T) : Prop :=
  length C = length C0 ∧
  (∀ i' j', i' < M → j' < N →
     C !! (i' + j' * LDC) =
       if decide (stored j i j' i')
       then MatAdd_value LDA LDB ALPHA BETA A B C0 i' j'
       else C0 !! (i' + j' * LDC)) ∧
  (∀ k, (∀ i' j', i' < M → j' < N → k ≠ i' + j' * LDC) → C !! k = C0 !! k).
End MatAdd.

(** ** MatAdd: the specialisations under [_CQ_MKL] *)

(** The signature of [mkl_domatadd] and [mkl_zomatadd]: the ordering, the
    two transposition flags, the sizes and the operands.  The kernels are
    the vendor's; whatever a kernel does, it does not run the assertion of
    the generic template. *)
Definition omatadd (T : Type) : Type :=
  ascii → ascii → ascii → nat → nat → T → operand T → nat →
  T → operand T → nat → list T → nat → option (list T).

(** [MatAdd] with both weights and the three matrices of one type [T]
    ([double], or [dcomplex]): under [_CQ_MKL] the full specialisation,
    which hands the call with its flags to the kernel; otherwise the
    explicit instantiation of the generic template. *)
Definition MatAdd_same {T} `{Scalar T} (CQ_MKL : option (omatadd T))
  (omp : worksharing) (TRANSA TRANSB : ascii) (M N : nat) (ALPHA : T)
  (A : operand T) (LDA : nat) (BETA : T) (B : operand T) (LDB : nat)
  (C : list T) (LDC : nat) : result (list T) :=
  match CQ_MKL with
  | Some kernel =>
      of_option (kernel "C"%char TRANSA TRANSB M N ALPHA A LDA BETA B LDB C LDC)
  | None =>
      MatAdd (PA := promote_self T) (PB := promote_self T)
        (PS1 := promote_self T) (PS2 := promote_self T)
        omp TRANSA TRANSB M N ALPHA A LDA BETA B LDB C LDC
  end.

(** A kernel in the shape the vendor documents for column-major ordering
    and the flags ['N'] and ['T']: [C := alpha*op(A) + beta*op(B)]. *)
Definition omatadd_NT {T} `{Scalar T} : omatadd T :=
  λ ordering transa transb M N alpha A LDA beta B LDB C LDC,
    let op (t : ascii) (X : operand T) (LD i j : nat) : option T :=
      if decide (t = "N"%char)
      then operand_get (PX := promote_self T) X C (i + j * LD)
      else operand_get (PX := promote_self T) X C (j + i * LD) in
    if decide (ordering = "C"%char ∧ (transa = "N"%char ∨ transa = "T"%char) ∧
               (transb = "N"%char ∨ transb = "T"%char) ∧ 0 < M ≤ LDC)
    then mapM (λ k,
                 let i := k mod LDC in
                 let j := k / LDC in
                 if decide (i < M ∧ j < N)
                 then a ← op transa A LDA i j;
                      b ← op transb B LDB i j;
                      Some (axpby (PS1 := promote_self T)
                              (PS2 := promote_self T) alpha a beta b)
                 else C !! k)
              (seq 0 (length C))
    else None.

(** ** Concrete numbers and calls

    The inputs at which the statements below are evaluated. *)

Definition dbl (z : Z) : double := Qc_of_Z z.

(** [MatAdd] instantiated at [double] for every type parameter. *)
Definition MatAdd_d (omp : worksharing) (TRANSA TRANSB : ascii) (M N : nat)
  (ALPHA : double) (A : operand double) (LDA : nat) (BETA : double)
  (B : operand double) (LDB : nat) (C : list double) (LDC : nat)
  : result (list double) :=
  MatAdd (T := double) (PA := promote_self double) (PB := promote_self double)
    (PS1 := promote_self double) (PS2 := promote_self double)
    omp TRANSA TRANSB M N ALPHA A LDA BETA B LDB C LDC.

(** The explicit instantiation
    [MatAdd(char,char,size_t,size_t,dcomplex,dcomplex*,size_t,dcomplex,
    double*,size_t,dcomplex*,size_t)]. *)
Definition MatAdd_zdz (omp : worksharing) (TRANSA TRANSB : ascii) (M N : nat)
  (ALPHA : dcomplex) (A : operand dcomplex) (LDA : nat) (BETA : dcomplex)
  (B : operand double) (LDB : nat) (C : list dcomplex) (LDC : nat)
  : result (list dcomplex) :=
  MatAdd (T := dcomplex) (PA := promote_self dcomplex)
    (PB := promote_real dcomplex)
    (PS1 := promote_self dcomplex) (PS2 := promote_self dcomplex)
    omp TRANSA TRANSB M N ALPHA A LDA BETA B LDB C LDC.

Definition A22 : list double := [dbl 1; dbl 2; dbl 3; dbl 4].
Definition B22 : list double := [dbl 10; dbl 20; dbl 30; dbl 40].
Definition Z22 : list double := [dbl 0; dbl 0; dbl 0; dbl 0].
Definition C22z : list dcomplex :=
  [(dbl 0, dbl 1); (dbl 0, dbl 2); (dbl 0, dbl 3); (dbl 0, dbl 4)].

(** ** Helpers of cqlinalg/blasext used by the Fock build *)

(** [memset(p, 0, n*sizeof(T))], [std::fill_n(p, n, 0.)]: the first [n]
    elements become zero. *)
Definition zero_fill {T} `{Scalar T} (n : nat) (buf : list T)
  : result (list T) :=
  if decide (n ≤ length buf)
  then Ok (replicate n sc_zero ++ drop n buf)
  else Halt UndefinedBehaviour.

(** What a stored element of the core Hamiltonian contributes to the real
    and to the imaginary axis of a Fock element.  The element type of
    [aoints.coreH] is declared outside the files at hand. *)
Class CoreElement (H : Type) : Type := {
  re_axis : H → double;
  im_axis : H → double;
}.

(** A core Hamiltonian stored in the working scalar type. *)
Definition core_as_scalar (T : Type) `{Scalar T} : CoreElement T :=
  {| re_axis := re_part; im_axis := im_part |}.

(** A core Hamiltonian stored as real matrices, each holding the
    contribution to the axis it is copied to. *)
Definition core_as_real : CoreElement double :=
  {| re_axis := λ x, x; im_axis := λ x, x |}.

(** [B[i + j*LDB] = f (A[i + j*LDA]) (B[i + j*LDB])] over an [M]×[N]
    block. *)
Definition block_update {X Y} (f : X → Y → Y) (M N : nat) (A : list X)
  (LDA : nat) (B : list Y) (LDB : nat) : result (list Y) :=
  for_loop (λ j B1,
      for_loop (λ i B2,
          a ← of_option (A !! (i + j * LDA));
          b ← of_option (B2 !! (i + j * LDB));
          Ok (<[i + j * LDB := f a b]> B2)) 0 M B1) 0 N B.

(** Modelled from the spec: [SetMatRE], [SetMatIM] and [GetMatRE] of
    cqlinalg/blasext are missing.  [SetMatRE] copies the real part of the
    source onto the destination, [SetMatIM] copies the imaginary-axis
    contribution of the source, [GetMatRE] stores the real content of its
    source in real storage; each scales by [ALPHA], and a transposition flag
    other than ['N'] is a contract violation that ends in an assertion. *)
Definition SetMatRE {T H} {SC : Scalar T} {CE : CoreElement H} (TRANS : ascii)
  (M N : nat) (ALPHA : double) (A : list H) (LDA : nat) (B : list T)
  (LDB : nat) : result (list T) :=
  if decide (TRANS = "N"%char)
  then block_update (λ a b, with_re (ALPHA * re_axis a)%Qc b) M N A LDA B LDB
  else Halt AssertionFailed.

Definition SetMatIM {T H} {SC : Scalar T} {CE : CoreElement H} (TRANS : ascii)
  (M N : nat) (ALPHA : double) (A : list H) (LDA : nat) (B : list T)
  (LDB : nat) : result (list T) :=
  if decide (TRANS = "N"%char)
  then block_update (λ a b, with_im (ALPHA * im_axis a)%Qc b) M N A LDA B LDB
  else Halt AssertionFailed.

Definition GetMatRE {T} `{Scalar T} (TRANS : ascii) (M N : nat)
  (ALPHA : double) (A : list T) (LDA : nat) (B : list double) (LDB : nat)
  : result (list double) :=
  if decide (TRANS = "N"%char)
  then block_update (λ a _, (ALPHA * re_part a)%Qc) M N A LDA B LDB
  else Halt AssertionFailed.

(** ** The shared allocator *)

(** Modelled from the spec: [CQMemManager] is missing.  [allocate<T>(count)]
    hands out a transient buffer of [count] elements, whose content is
    whatever the pool holds, or fails when the pool is exhausted;
    [release(pointer)] returns a live buffer to the pool. *)
Record CQMemManager (T : Type) : Type := MkMem {
  available : nat;                      (* elements left in the pool *)
  blocks : list (option (list T));      (* buffers handed out; [None]: freed *)
  pool_content : nat → T;               (* what fresh memory holds *)
}.
Arguments MkMem {T}.
Arguments available {T}.
Arguments blocks {T}.
Arguments pool_content {T}.

Definition mem_malloc {T} (count : nat) (m : CQMemManager T)
  : result (nat * CQMemManager T) :=
  if decide (count ≤ available m)
  then Ok (length (blocks m),
           MkMem (available m - count)
                 (blocks m ++ [Some (pool_content m <$> seq 0 count)])
                 (pool_content m))
  else Halt AllocationFailed.

Definition mem_free {T} (b : nat) (m : CQMemManager T)
  : result (CQMemManager T) :=
  match blocks m !! b with
  | Some (Some buf) =>
      Ok (MkMem (available m + length buf) (<[b := None]> (blocks m))
                (pool_content m))
  | _ => Halt UndefinedBehaviour
  end.

(** The buffers that are handed out and not yet freed. *)
Definition live_blocks {T} (m : CQMemManager T) : list nat :=
  (imap (λ b o, if o is Some _ then [b] else []) (blocks m)) ≫= id.

(** ** The state of a single Slater determinant *)

Inductive ContractionType : Type := COULOMB | EXCHANGE.

Definition SCALAR : nat := 0.

(** The destinations handed to the contraction engine. *)
Inductive ptr : Type :=
  | JScalarPtr            (* reinterpret_cast<T*>(JScalar) *)
  | KPtr (i : nat)        (* K[i] *)
  | PoolPtr (b : nat).    (* a buffer of the allocator *)

(** [TwoBodyContraction<T,T>]: density, destination, accumulate flag,
    kind. *)
Record TwoBodyContraction (T : Type) : Type := MkContraction {
  density : list T;
  destination : ptr;
  accumulate : bool;
  kind : ContractionType;
}.
Arguments MkContraction {T}.
Arguments density {T}.
Arguments destination {T}.
Arguments accumulate {T}.
Arguments kind {T}.

(** What a run asks of its collaborators, in order. *)
Inductive event (T : Type) : Type :=
  | EvMalloc (count b : nat)
  | EvFree (b : nat)
  | EvTwoBodyContract (requests : list (TwoBodyContraction T))
  | EvGetAmp.
Arguments EvMalloc {T}.
Arguments EvFree {T}.
Arguments EvTwoBodyContract {T}.
Arguments EvGetAmp {T}.

(** The part of [AOIntegrals] the Fock build reads.  [twoBody kind D k] is
    element [k] of the contraction of the density [D] with the two-electron
    integrals: the integrals themselves are data of the run. *)
Record AOIntegrals (T H : Type) : Type := MkAOIntegrals {
  nBasis : nat;
  coreH : list (list H);
  lenElecDipole : list (list double);
  twoBody : ContractionType → list T → nat → T;
}.
Arguments MkAOIntegrals {T H}.
Arguments nBasis {T H}.
Arguments coreH {T H}.
Arguments lenElecDipole {T H}.
Arguments twoBody {T H}.

Record SingleSlater (T H : Type) : Type := MkSingleSlater {
  aoints : AOIntegrals T H;
  memManager : CQMemManager T;
  onePDM : list (list T);
  deltaOnePDM : list (list T);
  fock : list (list T);
  GD : list (list T);
  K : list (list T);
  JScalar : list double;
  trace : list (event T);
}.
Arguments MkSingleSlater {T H}.
Arguments aoints {T H}.
Arguments memManager {T H}.
Arguments onePDM {T H}.
Arguments deltaOnePDM {T H}.
Arguments fock {T H}.
Arguments GD {T H}.
Arguments K {T H}.
Arguments JScalar {T H}.
Arguments trace {T H}.

(** ** The external field *)

(** Modelled from the spec: [EMPerturbation] is missing.  A descriptor is a
    set of active field components, each along one axis (0, 1, 2 for x, y,
    z) with a scalar amplitude, and empty when no field is applied; its
    amplitude has one entry per axis. *)
Record EMPerturbation : Type := MkPert { fields : list (nat * double) }.

Definition cart_t : Type := (double * double * double)%type.

Definition axis_amplitude (ax : nat) (fs : list (nat * double)) : double :=
  foldr (λ f acc, if decide (f.1 = ax) then (f.2 + acc)%Qc else acc) 0%Qc fs.

Definition getAmp (pert : EMPerturbation) : cart_t :=
  (axis_amplitude 0 (fields pert), axis_amplitude 1 (fields pert),
   axis_amplitude 2 (fields pert)).

(** [dipole[iXYZ]] for [iXYZ < 3]. *)
Definition cart_get (c : cart_t) (iXYZ : nat) : double :=
  match iXYZ with
  | 0 => c.1.1
  | 1 => c.1.2
  | _ => c.2
  end.

(** ** Thresholds *)

Definition thr_xHFX : double := (1 / Qc_of_Z (10 ^ 12))%Qc.   (* 1e-12 *)
Definition thr_field : double := (1 / Qc_of_Z (10 ^ 10))%Qc.  (* 1e-10 *)

(** [std::abs(x) > thr]. *)
Definition exceeds (x thr : double) : bool := bool_decide (thr < Qcabs x)%Qc.

(** ** SingleSlater<T>::formGD and SingleSlater<T>::formFock *)

(** [for (auto i = start; i < n; i++)] with [int i] against an unsigned
    bound. *)
Definition for_int_from {St} (start n : nat) (body : nat → St → result St)
  (s : St) : result St :=
  if decide (Z.of_nat n ≤ INT_MAX)%Z then for_loop body start (n - start) s
  else Halt UndefinedBehaviour.

(** [l[i] = g(l[i])] on a vector of buffers. *)
Definition update_at {A} (i : nat) (g : A → result A) (l : list A)
  : result (list A) :=
  x ← of_option (l !! i);
  y ← g x;
  Ok (<[i := y]> l).

Section SingleSlater.
Context {T H : Type} {SC : Scalar T} {CE : CoreElement H}.

Local Abbreviation state := (SingleSlater T H).

Definition set_memManager (m : CQMemManager T) (s : state) : state :=
  MkSingleSlater (aoints s) m (onePDM s) (deltaOnePDM s) (fock s) (GD s)
    (K s) (JScalar s) (trace s).
Definition set_fock (F : list (list T)) (s : state) : state :=
  MkSingleSlater (aoints s) (memManager s) (onePDM s) (deltaOnePDM s) F
    (GD s) (K s) (JScalar s) (trace s).
Definition set_GD (G : list (list T)) (s : state) : state :=
  MkSingleSlater (aoints s) (memManager s) (onePDM s) (deltaOnePDM s)
    (fock s) G (K s) (JScalar s) (trace s).
Definition set_K (K' : list (list T)) (s : state) : state :=
  MkSingleSlater (aoints s) (memManager s) (onePDM s) (deltaOnePDM s)
    (fock s) (GD s) K' (JScalar s) (trace s).
Definition set_JScalar (J : list double) (s : state) : state :=
  MkSingleSlater (aoints s) (memManager s) (onePDM s) (deltaOnePDM s)
    (fock s) (GD s) (K s) J (trace s).
Definition log (e : event T) (s : state) : state :=
  MkSingleSlater (aoints s) (memManager s) (onePDM s) (deltaOnePDM s)
    (fock s) (GD s) (K s) (JScalar s) (trace s ++ [e]).

(** Reading and writing the buffer behind a destination pointer.  [JScalar]
    can be addressed as [T*] only when [T] is [double]. *)
Definition load (p : ptr) (s : state) : result (list T) :=
  match p with
  | JScalarPtr =>
      if is_double (T := T) then Ok (of_double <$> JScalar s)
      else Halt UndefinedBehaviour
  | KPtr i => of_option (K s !! i)
  | PoolPtr b => of_option (mjoin (blocks (memManager s) !! b))
  end.

Definition store (p : ptr) (buf : list T) (s : state) : result state :=
  match p with
  | JScalarPtr =>
      if is_double (T := T) then Ok (set_JScalar (re_part <$> buf) s)
      else Halt UndefinedBehaviour
  | KPtr i =>
      if decide (i < length (K s)) then Ok (set_K (<[i := buf]> (K s)) s)
      else Halt UndefinedBehaviour
  | PoolPtr b =>
      match blocks (memManager s) !! b with
      | Some (Some _) =>
          Ok (set_memManager
                (MkMem (available (memManager s))
                       (<[b := Some buf]> (blocks (memManager s)))
                       (pool_content (memManager s))) s)
      | _ => Halt UndefinedBehaviour
      end
  end.

(** [memset(p, 0, n*sizeof(T))] *)
Definition zero_ptr (p : ptr) (n : nat) (s : state) : result state :=
  buf ← load p s;
  buf' ← zero_fill n buf;
  store p buf' s.

(** [memManager.malloc<T>(n)] and [memManager.free(p)] *)
Definition malloc (n : nat) (s : state) : result (ptr * state) :=
  bm ← mem_malloc n (memManager s);
  Ok (PoolPtr bm.1, log (EvMalloc n bm.1) (set_memManager bm.2 s)).

Definition free (p : ptr) (s : state) : result state :=
  match p with
  | PoolPtr b =>
      m ← mem_free b (memManager s);
      Ok (log (EvFree b) (set_memManager m s))
  | _ => Halt UndefinedBehaviour
  end.

(** Modelled from the spec: [AOIntegrals::twoBodyContract] is missing.
    The engine takes the whole list of requests in one call and, for each
    request, contracts the density with the integrals of the request's
    kind and accumulates the result into the destination buffer (or
    writes it, when the flag is off). *)
Definition contract_one (c : TwoBodyContraction T) (s : state)
  : result state :=
  dest ← load (destination c) s;
  store (destination c)
    (imap (λ k d, sc_add (if accumulate c then d else sc_zero)
                         (twoBody (aoints s) (kind c) (density c) k)) dest)
    s.

Fixpoint run_requests (l : list (TwoBodyContraction T)) (s : state)
  : result state :=
  match l with
  | [] => Ok s
  | c :: rest => s' ← contract_one c s; run_requests rest s'
  end.

Definition twoBodyContract (l : list (TwoBodyContraction T)) (s : state)
  : result state :=
  run_requests l (log (EvTwoBodyContract l) s).
End SingleSlater.

Section FockBuild.
Context {T H : Type} {SC : Scalar T} {CE : CoreElement H}.

Local Abbreviation state := (SingleSlater T H).

(** The instantiation of [MatAdd] with weights and matrices of type [T],
    as the Fock build runs it: with a team of one thread. *)
Definition MatAdd_TTT : ascii → ascii → nat → nat → T → operand T → nat →
    T → operand T → nat → list T → nat → result (list T) :=
  MatAdd (PA := promote_self T) (PB := promote_self T)
    (PS1 := promote_self T) (PS2 := promote_self T) serial.

(** The instantiation of [MatAdd] whose second matrix is [double*], with
    a team of one thread. *)
Definition MatAdd_TdT : ascii → ascii → nat → nat → T → operand T → nat →
    T → operand double → nat → list T → nat → result (list T) :=
  MatAdd (PA := promote_self T) (PB := promote_real T)
    (PS1 := promote_self T) (PS2 := promote_self T) serial.

(** Lines 94-100: [JContract] is [JScalar] itself for [double], and a
    transient buffer of [NB2] elements otherwise. *)
Definition formGD_JContract (s : state) : result (ptr * state) :=
  let NB := nBasis (aoints s) in
  let NB2 := NB * NB in
  if is_double (T := T) then Ok (JScalarPtr, s) else malloc NB2 s.

(** Lines 102-104: zero out J. *)
Definition formGD_zero_J (increment : bool) (JContract : ptr) (s : state)
  : result state :=
  let NB := nBasis (aoints s) in
  let NB2 := NB * NB in
  if negb increment || negb (is_double (T := T))
  then zero_ptr JContract NB2 s
  else Ok s.

(** The body of the loop of lines 111-116. *)
Definition formGD_exchange (increment : bool)
  (contract1PDM : list (list T)) (i : nat)
  (st : list (TwoBodyContraction T) * state)
  : result (list (TwoBodyContraction T) * state) :=
  let NB := nBasis (aoints st.2) in
  let NB2 := NB * NB in
  D ← of_option (contract1PDM !! i);
  s ← (if negb increment then zero_ptr (KPtr i) NB2 st.2
       else (_ ← of_option (K st.2 !! i); Ok st.2));
  Ok (st.1 ++ [MkContraction D (KPtr i) true EXCHANGE], s).

(** Lines 106-116: the list of contraction requests. *)
Definition formGD_requests (increment : bool) (xHFX : double)
  (JContract : ptr) (s : state)
  : result (list (TwoBodyContraction T) * state) :=
  let contract1PDM := if increment then deltaOnePDM s else onePDM s in
  D ← of_option (contract1PDM !! SCALAR);
  let contract := [MkContraction D JContract true COULOMB] in
  if exceeds xHFX thr_xHFX
  then for_int (length (K s)) (formGD_exchange increment contract1PDM)
         (contract, s)
  else Ok (contract, s).

(** Lines 120-129: fold the transient buffer back into [JScalar] and
    release it. *)
Definition formGD_fold_J (increment : bool) (JContract : ptr) (s : state)
  : result state :=
  let NB := nBasis (aoints s) in
  if negb (is_double (T := T)) then
    s1 ← (if negb increment then Ok s
          else
            Jc ← load JContract s;
            Jc' ← MatAdd_TdT "N" "N" NB NB (of_double 1%Qc) SameAsC NB
                    (of_double 1%Qc) (Buffer (JScalar s)) NB Jc NB;
            store JContract Jc' s);
    Jc ← load JContract s1;
    J ← GetMatRE "N" NB NB 1%Qc Jc NB (JScalar s1) NB;
    free JContract (set_JScalar J s1)
  else Ok s.

(** Lines 133-139: [GD[i] = -xHFX * K[i]], or [GD[i] = 0]. *)
Definition formGD_GD (xHFX : double) (s : state) : result state :=
  let NB := nBasis (aoints s) in
  let NB2 := NB * NB in
  G ← (if exceeds xHFX thr_xHFX
       then for_int (length (K s))
              (λ i G,
                 k ← of_option (K s !! i);
                 update_at i
                   (λ g, MatAdd_TTT "N" "N" NB NB (of_double 0%Qc) SameAsC NB
                           (of_double (- xHFX)%Qc) (Buffer k) NB g NB) G)
              (GD s)
       else for_int (length (fock s))
              (λ i G, update_at i (zero_fill NB2) G) (GD s));
  Ok (set_GD G s).

(** Lines 143-145: [G[D] += 2*J[D]] on the scalar component. *)
Definition formGD_add_J (s : state) : result state :=
  let NB := nBasis (aoints s) in
  G ← update_at SCALAR
        (λ g, MatAdd_TdT "N" "N" NB NB (of_double 1%Qc) SameAsC NB
                (of_double 2%Qc) (Buffer (JScalar s)) NB g NB) (GD s);
  Ok (set_GD G s).

(** Lines 88-129: the contraction with the two-electron integrals. *)
Definition formGD_contract (increment : bool) (xHFX : double) (s : state)
  : result state :=
  ps ← formGD_JContract s;
  s1 ← formGD_zero_J increment ps.1 ps.2;
  cs ← formGD_requests increment xHFX ps.1 s1;
  s2 ← twoBodyContract cs.1 cs.2;
  formGD_fold_J increment ps.1 s2.

Definition formGD (increment : bool) (xHFX : double) (s : state)
  : result state :=
  s3 ← formGD_contract increment xHFX s;
  s4 ← formGD_GD xHFX s3;
  formGD_add_J s4.

(** Lines 50-56: zero out the Fock, copy over the core Hamiltonian. *)
Definition formFock_core (s : state) : result (list (list T)) :=
  let NB := nBasis (aoints s) in
  let NB2 := NB * NB in
  F ← mapM (M := result) (zero_fill NB2) (fock s);
  h ← of_option (coreH (aoints s) !! SCALAR);
  F ← update_at SCALAR (λ f, SetMatRE "N" NB NB 1%Qc h NB f NB) F;
  for_int_from 1 (length (coreH (aoints s)))
    (λ i F,
       h ← of_option (coreH (aoints s) !! i);
       update_at i (λ f, SetMatIM "N" NB NB 1%Qc h NB f NB) F) F.

(** Lines 58-61: add in the perturbation tensor. *)
Definition formFock_GD (s : state) (F : list (list T))
  : result (list (list T)) :=
  let NB := nBasis (aoints s) in
  for_ulong (length (fock s))
    (λ i F,
       g ← of_option (GD s !! i);
       update_at i
         (λ f, MatAdd_TTT "N" "N" NB NB (of_double 1%Qc) SameAsC NB
                 (of_double 1%Qc) (Buffer g) NB f NB) F) F.

(** The body of the loop of lines 67-70. *)
Definition formFock_axis (s : state) (dipole : cart_t) (iXYZ : nat)
  (F : list (list T)) : result (list (list T)) :=
  let NB := nBasis (aoints s) in
  if exceeds (cart_get dipole iXYZ) thr_field then
    L ← of_option (lenElecDipole (aoints s) !! iXYZ);
    update_at 0
      (λ f, MatAdd_TdT "N" "N" NB NB (of_double 1%Qc) SameAsC NB
              (of_double (Qc_of_Z (-2) * cart_get dipole iXYZ)%Qc)
              (Buffer L) NB f NB) F
  else Ok F.

(** Lines 64-71: the external field. *)
Definition formFock_field (pert : EMPerturbation) (s : state)
  (F : list (list T)) : result (list (list T) * state) :=
  if decide (length (fields pert) ≠ 0) then
    let dipole := getAmp pert in
    let s' := log EvGetAmp s in
    F' ← for_int 3 (formFock_axis s' dipole) F;
    Ok (F', s')
  else Ok (F, s).

Definition formFock (pert : EMPerturbation) (increment : bool)
  (xHFX : double) (s : state) : result state :=
  s1 ← formGD increment xHFX s;
  F ← formFock_core s1;
  F ← formFock_GD s1 F;
  Fs ← formFock_field pert s1 F;
  Ok (set_fock Fs.1 Fs.2).
End FockBuild.

(** ** RealTime<_SSTyp,T>::formFock *)

(** Modelled from the spec: [TDEMPerturbation] is missing.  The
    perturbation source gives, for a time, the amplitude of each field
    component that is configured. *)
Record TDEMPerturbation : Type :=
  MkTDPert { td_fields : list (nat * (double → double)) }.

Definition getPert (p : TDEMPerturbation) (t : double) : EMPerturbation :=
  MkPert ((λ f, (f.1, f.2 t)) <$> td_fields p).

Record RealTime (T H : Type) : Type := MkRealTime {
  pert : TDEMPerturbation;
  curState_xTime : double;            (* curState.xTime *)
  propagator_ : SingleSlater T H;
}.
Arguments MkRealTime {T H}.
Arguments pert {T H}.
Arguments curState_xTime {T H}.
Arguments propagator_ {T H}.

Section RealTime.
Context {T H : Type} {SC : Scalar T} {CE : CoreElement H}.
(** The default of the parameter [xHFX] of [SingleSlater<T>::formFock],
    which is given with the declaration of the class. *)
Variable default_xHFX : double.

(** The arguments with which [propagator_.formFock] is called. *)
Definition RealTime_formFock_call (rt : RealTime T H) (increment : bool)
  (t : double) : EMPerturbation * bool :=
  let pert_t := getPert (pert rt) (curState_xTime rt) in
  (pert_t, increment).

Definition RealTime_formFock (rt : RealTime T H) (increment : bool)
  (t : double) : result (RealTime T H) :=
  let call := RealTime_formFock_call rt increment t in
  p ← formFock call.1 call.2 default_xHFX (propagator_ rt);
  Ok (MkRealTime (pert rt) (curState_xTime rt) p).
End RealTime.

(** ** Concrete states

    A closed-shell state on two basis functions, in the real and in the
    complex representation, and one with two spin components. *)

Definition dbls (l : list Z) : list double := dbl <$> l.
Definition cplx (l : list (Z * Z)) : list dcomplex :=
  (λ z, (dbl z.1, dbl z.2)) <$> l.

Definition ao_d : AOIntegrals double double :=
  MkAOIntegrals 2 [dbls [1; 0; 0; 2]%Z]
    [dbls [1; 1; 1; 1]%Z; dbls [1; 1; 1; 1]%Z; dbls [1; 1; 1; 1]%Z]
    (λ kind D k,
       match kind with
       | COULOMB => default 0%Qc (D !! k)
       | EXCHANGE => (dbl 3 * default 0%Qc (D !! k))%Qc
       end).

Definition ss_d : SingleSlater double double :=
  MkSingleSlater ao_d (MkMem 16 [] (λ _, dbl 8))
    [dbls [1; 2; 3; 4]%Z] [dbls [1; 1; 1; 1]%Z]
    [dbls [9; 9; 9; 9]%Z] [dbls [7; 7; 7; 7]%Z] [dbls [5; 5; 5; 5]%Z]
    (dbls [3; 3; 3; 3]%Z) [].

Definition ao_z : AOIntegrals dcomplex double :=
  MkAOIntegrals 2 [dbls [1; 0; 0; 2]%Z; dbls [0; 1; 1; 0]%Z]
    [dbls [1; 1; 1; 1]%Z; dbls [1; 1; 1; 1]%Z; dbls [1; 1; 1; 1]%Z]
    (λ kind D k,
       match kind with
       | COULOMB => default (0%Qc, 0%Qc) (D !! k)
       | EXCHANGE => cplx_mul (dbl 3, dbl 0) (default (0%Qc, 0%Qc) (D !! k))
       end).

Definition ss_z : SingleSlater dcomplex double :=
  MkSingleSlater ao_z (MkMem 16 [] (λ _, (dbl 8, dbl 8)))
    [cplx [(1, 1); (2, 0); (3, 0); (4, 1)]%Z;
     cplx [(1, 0); (0, 1); (0, 1); (1, 0)]%Z]
    [cplx [(1, 0); (1, 0); (1, 0); (1, 0)]%Z;
     cplx [(0, 1); (0, 1); (0, 1); (0, 1)]%Z]
    [cplx [(9, 9); (9, 9); (9, 9); (9, 9)]%Z;
     cplx [(9, 9); (9, 9); (9, 9); (9, 9)]%Z]
    [cplx [(7, 7); (7, 7); (7, 7); (7, 7)]%Z;
     cplx [(7, 7); (7, 7); (7, 7); (7, 7)]%Z]
    [cplx [(5, 5); (5, 5); (5, 5); (5, 5)]%Z;
     cplx [(5, 5); (5, 5); (5, 5); (5, 5)]%Z]
    (dbls [3; 3; 3; 3]%Z) [].

(** ** Well-formed states, and what a build leaves in the buffers *)

(** The operand of a [MatAdd] as a list of values of the destination
    type. *)
Definition operand_list {F T} {PX : Promote F T} (X : operand F)
  (C : list T) : list T :=
  match X with
  | Buffer l => promote <$> l
  | SameAsC => C
  end.

(** Every buffer of a collection holds [n] elements. *)
Definition sized {X} (n : nat) (l : list (list X)) : Prop :=
  Forall (λ b, length b = n) l.

Section Closed_forms.
Context {T H : Type} {SC : Scalar T} {CE : CoreElement H}.

Local Abbreviation state := (SingleSlater T H).

Definition NB2 (s : state) : nat := nBasis (aoints s) * nBasis (aoints s).

(** The invariant of the state object: all matrices are [NB]×[NB], every
    quantity has one matrix per component, there is a dipole matrix per
    axis, and the pool can serve the transient Coulomb buffer. *)
Definition well_formed (s : state) : Prop :=
  (Z.of_nat (nBasis (aoints s)) ≤ INT_MAX)%Z ∧
  (Z.of_nat (length (fock s)) ≤ INT_MAX)%Z ∧
  length (JScalar s) = NB2 s ∧
  sized (NB2 s) (fock s) ∧ sized (NB2 s) (GD s) ∧ sized (NB2 s) (K s) ∧
  sized (NB2 s) (coreH (aoints s)) ∧
  sized (NB2 s) (lenElecDipole (aoints s)) ∧
  length (lenElecDipole (aoints s)) = 3 ∧
  0 < length (fock s) ∧
  length (GD s) = length (fock s) ∧
  length (K s) = length (fock s) ∧
  length (onePDM s) = length (fock s) ∧
  length (deltaOnePDM s) = length (fock s) ∧
  0 < length (coreH (aoints s)) ≤ length (fock s) ∧
  (is_double (T := T) = false → NB2 s ≤ available (memManager s)).

Definition zeros (n : nat) : list T := replicate n sc_zero.

(** [alpha*a + beta*b] with both weights of type [T]. *)
Definition axpby_T (alpha a beta b : T) : T :=
  sc_add (sc_mul alpha a) (sc_mul beta b).

(** The density [contract1PDM[i]]. *)
Definition density_at (increment : bool) (s : state) (i : nat) : list T :=
  default [] ((if increment then deltaOnePDM s else onePDM s) !! i).

(** A destination after the engine has accumulated a contraction. *)
Definition contracted (ao : AOIntegrals T H) (kind : ContractionType)
  (D : list T) (dest : list T) : list T :=
  imap (λ k d, sc_add d (twoBody ao kind D k)) dest.

(** [JContract]: the pointer, what it holds when the engine is called,
    and what it holds when the engine returns. *)
Definition J_pointer (s : state) : ptr :=
  if is_double (T := T) then JScalarPtr
  else PoolPtr (length (blocks (memManager s))).

Definition J_before (increment : bool) (s : state) : list T :=
  if increment && is_double (T := T) then of_double <$> JScalar s
  else zeros (NB2 s).

Definition J_contracted (increment : bool) (s : state) : list T :=
  contracted (aoints s) COULOMB (density_at increment s SCALAR)
    (J_before increment s).

(** The requests handed to the engine. *)
Definition requests (increment : bool) (xHFX : double) (s : state)
  : list (TwoBodyContraction T) :=
  MkContraction (density_at increment s SCALAR) (J_pointer s) true COULOMB
  :: (if exceeds xHFX thr_xHFX
      then imap (λ i _, MkContraction (density_at increment s i) (KPtr i)
                          true EXCHANGE) (K s)
      else []).

Definition JScalar_after (increment : bool) (s : state) : list double :=
  if is_double (T := T) then re_part <$> J_contracted increment s
  else
    zip_with (λ a _, (1 * re_part a)%Qc)
      (if increment
       then zip_with (λ a b, axpby_T (of_double 1%Qc) a (of_double 1%Qc) b)
              (J_contracted increment s) (of_double <$> JScalar s)
       else J_contracted increment s)
      (JScalar s).

(** The exchange buffers when the engine is called. *)
Definition K_before (increment : bool) (xHFX : double) (s : state)
  : list (list T) :=
  if exceeds xHFX thr_xHFX && negb increment
  then (λ _, zeros (NB2 s)) <$> K s
  else K s.

Definition K_after (increment : bool) (xHFX : double) (s : state)
  : list (list T) :=
  if exceeds xHFX thr_xHFX
  then imap (λ i k, contracted (aoints s) EXCHANGE (density_at increment s i)
                      (if increment then k else zeros (NB2 s))) (K s)
  else K s.

(** [GD] after lines 133-139. *)
Definition GD_exchange (increment : bool) (xHFX : double) (s : state)
  : list (list T) :=
  if exceeds xHFX thr_xHFX
  then imap (λ i g,
               zip_with (λ a b, axpby_T (of_double 0%Qc) a
                                  (of_double (- xHFX)%Qc) b)
                 g (default [] (K_after increment xHFX s !! i))) (GD s)
  else (λ _, zeros (NB2 s)) <$> GD s.

Definition GD_after (increment : bool) (xHFX : double) (s : state)
  : list (list T) :=
  <[SCALAR :=
      zip_with (λ a b, axpby_T (of_double 1%Qc) a (of_double 2%Qc) b)
        (default [] (GD_exchange increment xHFX s !! SCALAR))
        (of_double <$> JScalar_after increment s)]>
    (GD_exchange increment xHFX s).

Definition memManager_after (s : state) : CQMemManager T :=
  if is_double (T := T) then memManager s
  else MkMem (available (memManager s)) (blocks (memManager s) ++ [None])
         (pool_content (memManager s)).

Definition events (increment : bool) (xHFX : double) (s : state)
  : list (event T) :=
  let b := length (blocks (memManager s)) in
  (if is_double (T := T) then [] else [EvMalloc (NB2 s) b])
  ++ [EvTwoBodyContract (requests increment xHFX s)]
  ++ (if is_double (T := T) then [] else [EvFree b]).

(** The state [formGD] leaves. *)
Definition formGD_result (increment : bool) (xHFX : double) (s : state)
  : state :=
  MkSingleSlater (aoints s) (memManager_after s) (onePDM s)
    (deltaOnePDM s) (fock s) (GD_after increment xHFX s)
    (K_after increment xHFX s) (JScalar_after increment s)
    (trace s ++ events increment xHFX s).
End Closed_forms.

Section Closed_forms_Fock.
Context {T H : Type} {SC : Scalar T} {CE : CoreElement H}.

Local Abbreviation state := (SingleSlater T H).

(** The Fock buffers after lines 50-56: zero, with the core Hamiltonian
    copied onto the real axis of the scalar component and onto the
    imaginary axis of the other components that have one. *)
Definition fock_core (s : state) : list (list T) :=
  imap (λ i _,
          if decide (i = SCALAR)
          then zip_with (λ a b, with_re (1 * re_axis a)%Qc b)
                 (default [] (coreH (aoints s) !! SCALAR)) (zeros (NB2 s))
          else if decide (i < length (coreH (aoints s)))
          then zip_with (λ a b, with_im (1 * im_axis a)%Qc b)
                 (default [] (coreH (aoints s) !! i)) (zeros (NB2 s))
          else zeros (NB2 s)) (fock s).

(** After lines 58-61. *)
Definition fock_GD (s : state) (F : list (list T)) : list (list T) :=
  imap (λ i f,
          zip_with (λ a b, axpby_T (of_double 1%Qc) a (of_double 1%Qc) b)
            f (default [] (GD s !! i))) F.

(** One turn of the loop of lines 67-70. *)
Definition fock_axis (s : state) (dipole : cart_t) (iXYZ : nat)
  (F : list (list T)) : list (list T) :=
  if exceeds (cart_get dipole iXYZ) thr_field
  then <[0 :=
           zip_with
             (λ a b, axpby_T (of_double 1%Qc) a
                       (of_double (Qc_of_Z (-2) * cart_get dipole iXYZ)%Qc)
                       b)
             (default [] (F !! 0))
             (of_double <$> default [] (lenElecDipole (aoints s) !! iXYZ))]>
         F
  else F.

(** After lines 64-71. *)
Definition fock_field (pert : EMPerturbation) (s : state)
  (F : list (list T)) : list (list T) :=
  if decide (length (fields pert) ≠ 0)
  then fock_axis s (getAmp pert) 2
         (fock_axis s (getAmp pert) 1 (fock_axis s (getAmp pert) 0 F))
  else F.

(** The state [formFock] leaves. *)
Definition formFock_result (pert : EMPerturbation) (increment : bool)
  (xHFX : double) (s : state) : state :=
  let s1 := formGD_result increment xHFX s in
  MkSingleSlater (aoints s1) (memManager s1) (onePDM s1) (deltaOnePDM s1)
    (fock_field pert s1 (fock_GD s1 (fock_core s1)))
    (GD s1) (K s1) (JScalar s1)
    (trace s1 ++ (if decide (length (fields pert) ≠ 0) then [EvGetAmp]
                  else [])).

(** Two states a full build cannot tell apart: the same integrals and
    density, and buffers of the same shape. *)
Definition same_inputs (s s' : state) : Prop :=
  aoints s' = aoints s ∧ onePDM s' = onePDM s ∧
  length (fock s') = length (fock s) ∧
  length (GD s') = length (GD s) ∧
  length (K s') = length (K s) ∧
  length (JScalar s') = length (JScalar s) ∧
  sized (NB2 s) (GD s) ∧ sized (NB2 s) (GD s').
End Closed_forms_Fock.

(** A propagation whose field grows linearly with time along x, with the
    state at time 0. *)
Definition rt_ramp : RealTime dcomplex double :=
  MkRealTime (MkTDPert [(0, λ t, t)]) (dbl 0) ss_z.

(** ** The densities between two builds *)

(** The density and its change are members of the state that the self
    consistent field driver replaces before it asks for an incremental
    build. *)
Definition set_onePDM {T H} (D : list (list T)) (s : SingleSlater T H)
  : SingleSlater T H :=
  MkSingleSlater (aoints s) (memManager s) D (deltaOnePDM s) (fock s) (GD s)
    (K s) (JScalar s) (trace s).

Definition set_deltaOnePDM {T H} (D : list (list T)) (s : SingleSlater T H)
  : SingleSlater T H :=
  MkSingleSlater (aoints s) (memManager s) (onePDM s) D (fock s) (GD s)
    (K s) (JScalar s) (trace s).

(** The contraction with the integrals is additive on the densities [D1]
    and [D2 = D1 + dD] of the first [n] components. *)
Definition additive_on {T H} {SC : Scalar T} (ao : AOIntegrals T H) (n : nat)
    (D1 dD D2 : list (list T)) : Prop :=
  ∀ kind i k, i < n →
    twoBody ao kind (default [] (D2 !! i)) k
    = sc_add (twoBody ao kind (default [] (D1 !! i)) k)
             (twoBody ao kind (default [] (dD !! i)) k).

(** ** valarray2array *)

(** [std::copy_n(first, n, out)], element by element. *)
Definition copy_n {T} (first : list T) (n : nat) (out : list T)
  : result (list T) :=
  for_loop (λ i out,
              v ← of_option (first !! i);
              if decide (i < length out) then Ok (<[i := v]> out)
              else Halt UndefinedBehaviour) 0 n out.

(** [valarray2array<N,T>(x)].  The array [arr] is default-initialised:
    [arr0] is what its [N] elements hold before they are written.  Taking
    the address [&x[0]] indexes the valarray, which is undefined when it is
    empty. *)
Definition valarray2array {T} (N : nat) (arr0 : nat → T) (x : list T)
  : result (list T) :=
  if decide (length x = N) then
    let arr := arr0 <$> seq 0 N in
    _ ← of_option (x !! 0);
    copy_n x N arr
  else Halt AssertionFailed.

(** ** CQMiscOptions: the message about the memory pool *)

Local Open Scope Z_scope.

(** [std::floor(std::log10(mem))] for [mem >= 1]: one less than the number
    of decimal digits.  The logarithm is taken exact; twenty digits cover
    every value of [size_t]. *)
Fixpoint floor_log10_digits (digits : nat) (mem : Z) : Z :=
  match digits with
  | O => 0
  | S d => if decide (mem < 10) then 0 else 1 + floor_log10_digits d (mem / 10)
  end.

Definition floor_log10 (mem : Z) : Z := floor_log10_digits 20 mem.

Definition SIZE_MAX : Z := 2 ^ 64 - 1.

(** [s.c_str()[i]]: the characters of [s], then the terminating zero. *)
Definition c_str_get (s : string) (i : nat) : result ascii :=
  match String.get i s with
  | Some c => Ok c
  | None =>
      if decide (i = String.length s) then Ok "000"%char
      else Halt UndefinedBehaviour
  end.

(** Line 72. *)
Definition postfixes : string := " KMGT".

(** Lines 73-74: [size_t indx = std::floor(std::log10(mem))/4;] and
    [char postfix = postfixes.c_str()[indx];].  The logarithm of 0 is
    minus infinity, which has no value as a [size_t]. *)
Definition CQMiscOptions_postfix (mem : Z) : result ascii :=
  if decide (0 < mem) then
    c_str_get postfixes (Z.to_nat (floor_log10 mem / 4))
  else Halt UndefinedBehaviour.

(** Lines 76-78: the quotient is formed in [double] (taken exact) and
    truncated by the conversion to [size_t]. *)
Definition CQMiscOptions_memPrint (postfix : ascii) (mem : Z) : Z :=
  if decide (postfix = "K"%char) then mem / 10 ^ 3
  else if decide (postfix = "M"%char) then mem / 10 ^ 6
  else if decide (postfix = "G"%char) then mem / 10 ^ 9
  else mem.

Local Close Scope Z_scope.

(** ** Loops: invariants *)

Lemma for_loop_inv {St} (P : nat → St → Prop) (body : nat → St → result St)
    (count : nat) :
  ∀ (start : nat) (s : St),
    P start s →
    (∀ k s0, start ≤ k < start + count → P k s0 →
             ∃ s1, body k s0 = Ok s1 ∧ P (S k) s1) →
    ∃ s', for_loop body start count s = Ok s' ∧ P (start + count) s'.
Proof.
  induction count as [|n IH]; intros start s Hs Hbody; simpl.
  - exists s. by rewrite Nat.add_0_r.
  - destruct (Hbody start s) as (s1 & -> & Hs1); [lia|done|]. simpl.
    destruct (IH (S start) s1) as (s' & Hrun & Hs'); [done| |].
    + intros k s0 Hk. apply Hbody. lia.
    + exists s'. split; [done|].
      by replace (start + S n) with (S start + n) by lia.
Qed.

Lemma for_int_inv {St} (P : nat → St → Prop) (body : nat → St → result St)
    (n : nat) (s : St) :
  (Z.of_nat n ≤ INT_MAX)%Z →
  P 0 s →
  (∀ k s0, k < n → P k s0 → ∃ s1, body k s0 = Ok s1 ∧ P (S k) s1) →
  ∃ s', for_int n body s = Ok s' ∧ P n s'.
Proof.
  intros Hn Hs Hbody. unfold for_int. rewrite decide_True by done.
  apply (for_loop_inv P body n 0 s Hs). intros k s0 Hk. apply Hbody. lia.
Qed.

(** ** MatAdd run by one thread *)

Section MatAdd_serial.
Context {F1 F2 S1 S2 T : Type} `{Scalar T}.
Context {PA : Promote F1 T} {PB : Promote F2 T}.
Context {PS1 : Promote S1 T} {PS2 : Promote S2 T}.
Variables (M N LDA LDB LDC : nat) (ALPHA : S1) (BETA : S2).
Variables (A : operand F1) (B : operand F2) (C0 : list T).

Local Abbreviation MatAdd_value := (MatAdd_value LDA LDB ALPHA BETA A B C0).
Local Abbreviation MatAdd_inv :=
  (MatAdd_inv M N LDA LDB LDC ALPHA BETA A B C0).

Hypothesis M_le_LDC : M ≤ LDC.
Hypothesis C_extent : in_extent M N LDC (length C0).
Hypothesis A_readable : readable M N LDA LDC A.
Hypothesis B_readable : readable M N LDB LDC B.

Lemma block_index_inj (i j i' j' : nat) :
  i < M → i' < M → i + j * LDC = i' + j' * LDC → i = i' ∧ j = j'.
Proof.
  clear -M_le_LDC. intros Hi Hi' Heq.
  destruct (Nat.lt_trichotomy j j') as [Hlt|[->|Hlt]]; [|lia|].
  - assert (S j * LDC ≤ j' * LDC) by (apply Nat.mul_le_mono_r; lia). lia.
  - assert (S j' * LDC ≤ j * LDC) by (apply Nat.mul_le_mono_r; lia). lia.
Qed.

Lemma operand_get_current {F} `{Promote F T} (X : operand F) (LD : nat)
    (C : list T) (i j : nat) :
  readable M N LD LDC X → MatAdd_inv j i C → i < M → j < N →
  operand_get X C (j * LD + i) = operand_get X C0 (i + j * LD) ∧
  is_Some (operand_get X C0 (i + j * LD)).
Proof.
  intros HX (Hlen & Hblock & _) Hi Hj.
  replace (j * LD + i) with (i + j * LD) by lia.
  destruct X as [l|]; simpl in *.
  - split; [done|]. apply fmap_is_Some, lookup_lt_is_Some. by apply HX.
  - subst LD. rewrite Hblock by done.
    rewrite decide_False by (unfold stored; lia).
    split; [done|]. apply lookup_lt_is_Some. by apply C_extent.
Qed.

Lemma MatAdd_store_inv (j i : nat) (C : list T) :
  i < M → j < N → MatAdd_inv j i C →
  ∃ C', MatAdd_store ALPHA A BETA B
          (Cursors (j * LDA) (j * LDB) (j * LDC)) i C = Ok C' ∧
        MatAdd_inv j (S i) C'.
Proof.
  intros Hi Hj Hinv. unfold MatAdd_store; simpl.
  destruct (operand_get_current A LDA C i j) as [-> [a Ha]]; [done..|].
  destruct (operand_get_current B LDB C i j) as [-> [b Hb]]; [done..|].
  rewrite Ha, Hb; simpl.
  destruct Hinv as (Hlen & Hblock & Hframe).
  assert (j * LDC + i < length C) as Hin.
  { rewrite Hlen. replace (j * LDC + i) with (i + j * LDC) by lia.
    by apply C_extent. }
  rewrite decide_True by done. eexists; split; [done|].
  split; [by rewrite length_insert|]. split.
  - intros i' j' Hi' Hj'.
    destruct (decide (i' + j' * LDC = j * LDC + i)) as [Heq|Hne].
    + destruct (block_index_inj i' j' i j) as [-> ->]; [done|done|lia|].
      rewrite Heq, list_lookup_insert_eq by done.
      rewrite decide_True by (unfold stored; lia).
      unfold MatAdd_value. by rewrite Ha, Hb.
    + rewrite list_lookup_insert_ne by done. rewrite Hblock by done.
      assert (¬ (i' = i ∧ j' = j)) by (intros [-> ->]; lia).
      destruct (decide (stored j i j' i')), (decide (stored j (S i) j' i'));
        unfold stored in *; try done; exfalso; lia.
  - intros k Hk. rewrite list_lookup_insert_ne; [by apply Hframe|].
    specialize (Hk i j Hi Hj). lia.
Qed.

Lemma MatAdd_column_inv (j : nat) (C : list T) :
  (Z.of_nat M ≤ INT_MAX)%Z → j < N → MatAdd_inv j 0 C →
  ∃ C', MatAdd_column M ALPHA A LDA BETA B LDB LDC j
          (Cursors (j * LDA) (j * LDB) (j * LDC), C)
        = Ok (Cursors (S j * LDA) (S j * LDB) (S j * LDC), C') ∧
        MatAdd_inv (S j) 0 C'.
Proof.
  intros HM Hj Hinv. unfold MatAdd_column; simpl.
  destruct (for_int_inv (MatAdd_inv j)
              (MatAdd_store ALPHA A BETA B
                 (Cursors (j * LDA) (j * LDB) (j * LDC))) M C)
    as (C' & -> & (Hlen & Hblock & Hframe)); [done|done| |].
  { intros i C1 Hi HC1. by apply MatAdd_store_inv. }
  exists C'. split.
  { simpl. do 2 f_equal. f_equal; lia. }
  split; [done|]. split; [|done].
  intros i' j' Hi' Hj'. rewrite Hblock by done.
  destruct (decide (stored j M j' i')), (decide (stored (S j) 0 j' i'));
    unfold stored in *; try done; exfalso; lia.
Qed.

Lemma MatAdd_thread_all :
  (Z.of_nat M ≤ INT_MAX)%Z →
  ∃ C', MatAdd_thread M ALPHA A LDA BETA B LDB LDC C0 N = Ok C' ∧
        MatAdd_inv N 0 C'.
Proof.
  intros HM. unfold MatAdd_thread.
  destruct (for_loop_inv
              (λ j st, st.1 = Cursors (j * LDA) (j * LDB) (j * LDC) ∧
                       MatAdd_inv j 0 st.2)
              (MatAdd_column M ALPHA A LDA BETA B LDB LDC) N 0
              (Cursors 0 0 0, C0))
    as ([loc C'] & -> & _ & Hinv).
  - split; [done|]. split; [done|]. split; [|done].
    intros i' j' _ _. by rewrite decide_False by (unfold stored; lia).
  - intros j [loc C] Hj [Hloc Hinv]; simpl in *. subst loc.
    destruct (MatAdd_column_inv j C) as (C' & -> & Hinv'); [done|lia|done|].
    by eexists.
  - by exists C'.
Qed.

Lemma MatAdd_serial_inv :
  (Z.of_nat M ≤ INT_MAX)%Z → (Z.of_nat N ≤ INT_MAX)%Z →
  ∃ C', MatAdd serial "N" "N" M N ALPHA A LDA BETA B LDB C0 LDC = Ok C' ∧
        MatAdd_inv N 0 C'.
Proof.
  intros HM HN. unfold MatAdd, serial.
  rewrite decide_True by done. rewrite decide_True by done. simpl.
  destruct (MatAdd_thread_all HM) as (C' & -> & Hinv). by exists C'.
Qed.
End MatAdd_serial.

(** ** Deciding equations between concrete rationals *)

(** Two canonical rationals are equal when their fractions are. *)
Ltac qc_eq := apply Qc_is_canon; vm_compute; reflexivity.

(** Equations between evaluated buffers and outcomes, component by
    component. *)
Ltac buffers_eq :=
  vm_compute; repeat (first [reflexivity | qc_eq | f_equal]).

(** Two canonical rationals differ when their fractions do. *)
Ltac qc_neq :=
  let Heq := fresh in
  intros Heq; apply (f_equal (λ x : Qc, Qnum (this x))) in Heq;
  vm_compute in Heq; discriminate Heq.

(** ** MatAdd: the element-wise contract *)




(** With a team of two threads each thread starts its cursors at the base
    pointers, so the thread given the second column stores into the first
    one again and the second column is left as it was. *)
Remark MatAdd_two_threads_second_column :
  MatAdd_d two_threads "N" "N" 1 2 (dbl 1) (Buffer A22) 1 (dbl 2)
    (Buffer B22) 1 [dbl 0; dbl 0] 1 = Ok [dbl 21; dbl 0].
Proof. buffers_eq. Qed.

(** ** MatAdd: the assertion on the transposition flags *)

Lemma for_loop_no_assert {St} (body : nat → St → result St) (count : nat) :
  (∀ k s, body k s ≠ Halt AssertionFailed) →
  ∀ start s, for_loop body start count s ≠ Halt AssertionFailed.
Proof.
  intros Hbody. induction count as [|n IH]; intros start s; simpl; [done|].
  specialize (Hbody start s). destruct (body start s) as [s1|e]; simpl.
  - apply IH.
  - done.
Qed.

Section MatAdd_assert.
Context {F1 F2 S1 S2 T : Type} `{Scalar T}.
Context {PA : Promote F1 T} {PB : Promote F2 T}.
Context {PS1 : Promote S1 T} {PS2 : Promote S2 T}.
Variables (M LDA LDB LDC : nat) (ALPHA : S1) (BETA : S2).
Variables (A : operand F1) (B : operand F2).

Lemma MatAdd_store_no_assert (loc : cursors) (i : nat) (C : list T) :
  MatAdd_store ALPHA A BETA B loc i C ≠ Halt AssertionFailed.
Proof.
  unfold MatAdd_store.
  destruct (operand_get A C (locA loc + i)); simpl; [|done].
  destruct (operand_get B C (locB loc + i)); simpl; [|done].
  by destruct (decide (locC loc + i < length C)).
Qed.

Lemma MatAdd_column_no_assert (j : nat) (st : cursors * list T) :
  MatAdd_column M ALPHA A LDA BETA B LDB LDC j st ≠ Halt AssertionFailed.
Proof.
  unfold MatAdd_column, for_int.
  destruct (decide (Z.of_nat M ≤ INT_MAX)%Z); simpl; [|done].
  pose proof (for_loop_no_assert (MatAdd_store ALPHA A BETA B st.1) M
                (MatAdd_store_no_assert st.1) 0 st.2) as Hloop.
  destruct (for_loop _ 0 M st.2) as [C'|e]; simpl; [done|].
  intros [= ->]. by apply Hloop.
Qed.

Lemma MatAdd_team_no_assert (team : list nat) :
  ∀ C, MatAdd_team M ALPHA A LDA BETA B LDB LDC C team
       ≠ Halt AssertionFailed.
Proof.
  induction team as [|count rest IH]; intros C; simpl; [done|].
  unfold MatAdd_thread.
  pose proof (for_loop_no_assert
                (MatAdd_column M ALPHA A LDA BETA B LDB LDC) count
                MatAdd_column_no_assert 0 (Cursors 0 0 0, C)) as Hloop.
  destruct (for_loop _ 0 count _) as [st|e]; simpl; [apply IH|].
  intros [= ->]. by apply Hloop.
Qed.

Lemma MatAdd_assert_iff (omp : worksharing) (TRANSA TRANSB : ascii)
    (N : nat) (C : list T) :
  MatAdd omp TRANSA TRANSB M N ALPHA A LDA BETA B LDB C LDC
    = Halt AssertionFailed
  ↔ (TRANSA ≠ "N"%char ∨ TRANSB ≠ "N"%char).
Proof.
  unfold MatAdd.
  destruct (decide (TRANSA = "N"%char ∧ TRANSB = "N"%char)) as [[-> ->]|Hn].
  - split; [|by intros [?|?]].
    destruct (decide (Z.of_nat N ≤ INT_MAX)%Z); [|done].
    intros Hteam. by apply MatAdd_team_no_assert in Hteam.
  - split; [|done]. intros _.
    destruct (decide (TRANSA = "N"%char)); [|by left].
    destruct (decide (TRANSB = "N"%char)); [|by right].
    by destruct Hn.
Qed.
End MatAdd_assert.

(** C9 (as amended).  A call that reaches the generic template of [MatAdd]
    (every call of a build without [_CQ_MKL], and the calls with mixed
    operand types of any build) ends in the assertion failure exactly when
    [TRANSA] or [TRANSB] differs from ['N']; with ['N','N'] the assertion
    passes. *)
Theorem MatAdd_transpose_asserts {F1 F2 S1 S2 T : Type} `{Scalar T}
    {PA : Promote F1 T} {PB : Promote F2 T}
    {PS1 : Promote S1 T} {PS2 : Promote S2 T}
    (omp : worksharing) (TRANSA TRANSB : ascii) (M N : nat)
    (ALPHA : S1) (A : operand F1) (LDA : nat) (BETA : S2) (B : operand F2)
    (LDB : nat) (C : list T) (LDC : nat)
    (ALPHA' BETA' : T) (A' B' : operand T) :
  (MatAdd omp TRANSA TRANSB M N ALPHA A LDA BETA B LDB C LDC
     = Halt AssertionFailed
   ↔ (TRANSA ≠ "N"%char ∨ TRANSB ≠ "N"%char)) ∧
  (MatAdd_same None omp TRANSA TRANSB M N ALPHA' A' LDA BETA' B' LDB C LDC
     = Halt AssertionFailed
   ↔ (TRANSA ≠ "N"%char ∨ TRANSB ≠ "N"%char)).
Proof. split; apply MatAdd_assert_iff. Qed.

(** C9, as stated, fails in a build with [_CQ_MKL]: a call with all
    operands [double] and [TRANSA = 'T'] goes to the kernel and no assertion
    is run. *)
Lemma MatAdd_mkl_transpose_no_assert :
  MatAdd_same (Some omatadd_NT) serial "T" "N" 2 2 (dbl 1) (Buffer A22) 2
    (dbl 2) (Buffer B22) 2 Z22 2
  = Ok [dbl 21; dbl 43; dbl 62; dbl 84] ∧
  Ok [dbl 21; dbl 43; dbl 62; dbl 84] ≠ Halt AssertionFailed.
Proof. split; [buffers_eq|done]. Qed.

(** ** Whole-matrix calls

    In the Fock build every matrix is [NB]×[NB] with leading dimension [NB]
    and fills its buffer. *)

Lemma square_index (NB k : nat) :
  k < NB * NB → k mod NB < NB ∧ k / NB < NB ∧ k = k mod NB + k / NB * NB.
Proof.
  intros Hk. assert (NB ≠ 0) by lia.
  split; [by apply Nat.mod_upper_bound|].
  split; [apply Nat.Div0.div_lt_upper_bound; lia|].
  rewrite (Nat.div_mod_eq k NB) at 1. lia.
Qed.

Lemma square_extent (NB len : nat) :
  len = NB * NB → in_extent NB NB NB len.
Proof.
  intros -> i j Hi Hj.
  assert (S j * NB ≤ NB * NB) by (apply Nat.mul_le_mono_r; lia). lia.
Qed.

Lemma operand_get_list {F T} {PX : Promote F T} (X : operand F) (C : list T)
    (k : nat) :
  operand_get X C k = operand_list X C !! k.
Proof. destruct X; simpl; [by rewrite list_lookup_fmap|done]. Qed.

Section MatAdd_full.
Context {F1 F2 S1 S2 T : Type} `{Scalar T}.
Context {PA : Promote F1 T} {PB : Promote F2 T}.
Context {PS1 : Promote S1 T} {PS2 : Promote S2 T}.

Lemma MatAdd_full (NB : nat) (ALPHA : S1) (A : operand F1) (BETA : S2)
    (B : operand F2) (C : list T) :
  (Z.of_nat NB ≤ INT_MAX)%Z →
  length C = NB * NB →
  length (operand_list A C) = NB * NB →
  length (operand_list B C) = NB * NB →
  MatAdd serial "N" "N" NB NB ALPHA A NB BETA B NB C NB
  = Ok (zip_with (λ a b, axpby ALPHA a BETA b)
          (operand_list A C) (operand_list B C)).
Proof.
  intros HNB HC HA HB.
  destruct (MatAdd_serial_inv NB NB NB NB NB ALPHA BETA A B C)
    as (C' & -> & Hlen & Hblock & _); [lia|by apply square_extent|..|done|done|].
  { destruct A; simpl in *; [|done].
    apply square_extent. by rewrite length_fmap in HA. }
  { destruct B; simpl in *; [|done].
    apply square_extent. by rewrite length_fmap in HB. }
  f_equal. apply list_eq. intros k.
  destruct (decide (k < NB * NB)) as [Hk|Hk].
  - destruct (square_index NB k Hk) as (Hi & Hj & Heq).
    rewrite Heq at 1. rewrite Hblock by done.
    rewrite decide_True by (unfold stored; lia).
    unfold MatAdd_value. rewrite !operand_get_list, <-Heq.
    rewrite lookup_zip_with.
    destruct (operand_list A C !! k); simpl; [|done].
    by destruct (operand_list B C !! k).
  - rewrite !lookup_ge_None_2; [done| |lia].
    rewrite length_zip_with. lia.
Qed.
End MatAdd_full.

Lemma zip_with_prefix_step {X Y} (f : X → Y → Y) (A : list X) (B : list Y)
    (n : nat) (a : X) (b : Y) :
  A !! n = Some a → B !! n = Some b →
  <[n := f a b]> (zip_with f (take n A) (take n B) ++ drop n B)
  = zip_with f (take (S n) A) (take (S n) B) ++ drop (S n) B.
Proof.
  intros Ha Hb.
  assert (n < length A) by by eapply lookup_lt_Some.
  assert (n < length B) by by eapply lookup_lt_Some.
  assert (length (zip_with f (take n A) (take n B)) = n) as Hlen.
  { rewrite length_zip_with, !length_take. lia. }
  rewrite (take_S_r A n a), (take_S_r B n b) by done.
  rewrite zip_with_app by (rewrite !length_take; lia).
  rewrite (drop_S B b n) by done. simpl.
  rewrite <-(Nat.add_0_r n) at 1. rewrite <-Hlen at 1.
  rewrite insert_app_r. simpl. by rewrite <-app_assoc.
Qed.

Lemma block_update_full {X Y} (f : X → Y → Y) (NB : nat) (A : list X)
    (B : list Y) :
  length A = NB * NB → length B = NB * NB →
  block_update f NB NB A NB B NB = Ok (zip_with f A B).
Proof.
  intros HA HB. unfold block_update.
  pose (P := λ (n : nat) (B' : list Y),
               B' = zip_with f (take n A) (take n B) ++ drop n B).
  destruct (for_loop_inv (λ j B', P (j * NB) B')
              (λ j B1, for_loop (λ i B2,
                   a ← of_option (A !! (i + j * NB));
                   b ← of_option (B2 !! (i + j * NB));
                   Ok (<[i + j * NB := f a b]> B2)) 0 NB B1) NB 0 B)
    as (B' & -> & HB').
  - unfold P. by rewrite take_0, drop_0.
  - intros j B1 Hj HB1.
    destruct (for_loop_inv (λ i B', P (i + j * NB) B')
                (λ i B2,
                   a ← of_option (A !! (i + j * NB));
                   b ← of_option (B2 !! (i + j * NB));
                   Ok (<[i + j * NB := f a b]> B2)) NB 0 B1)
      as (B2 & -> & HB2); [done| |].
    + intros i B2 Hi HB2.
      assert (i + j * NB < NB * NB) as Hn
        by (apply (square_extent NB); [done|lia..]).
      destruct (lookup_lt_is_Some_2 A (i + j * NB)) as [a Ha]; [lia|].
      destruct (lookup_lt_is_Some_2 B (i + j * NB)) as [b Hb]; [lia|].
      rewrite Ha. simpl. unfold P in HB2. subst B2.
      rewrite lookup_app_r by (rewrite length_zip_with, !length_take; lia).
      rewrite length_zip_with, !length_take.
      replace (i + j * NB - _) with 0 by lia.
      rewrite lookup_drop, Nat.add_0_r, Hb. simpl.
      eexists; split; [done|]. unfold P.
      by rewrite (zip_with_prefix_step f A B _ a b).
    + exists B2. split; [done|]. unfold P in *.
      by replace (S j * NB) with (0 + NB + j * NB) by lia.
  - f_equal. unfold P in HB'. simpl in HB'. subst B'.
    rewrite !take_ge, drop_ge by lia. by rewrite app_nil_r.
Qed.

Lemma zero_fill_full {T} `{Scalar T} (n : nat) (buf : list T) :
  length buf = n → zero_fill n buf = Ok (replicate n sc_zero).
Proof.
  intros Hlen. unfold zero_fill. rewrite decide_True by lia.
  by rewrite drop_ge, app_nil_r by lia.
Qed.

(** ** Loops over the components of a collection *)

Lemma for_loop_pointwise {A} (body : nat → list A → result (list A))
    (f : nat → A → A) (n : nat) :
  ∀ (start : nat) (l : list A),
    start + n ≤ length l →
    (∀ i l' x, start ≤ i < start + n → length l' = length l →
               l !! i = Some x → l' !! i = Some x →
               body i l' = Ok (<[i := f i x]> l')) →
    for_loop body start n l
    = Ok (imap (λ i x, if decide (start ≤ i < start + n) then f i x else x) l).
Proof.
  induction n as [|n IH]; intros start l Hlen Hbody; simpl.
  - f_equal. apply list_eq. intros k. rewrite list_lookup_imap.
    destruct (l !! k); simpl; [|done]. by rewrite decide_False by lia.
  - destruct (lookup_lt_is_Some_2 l start) as [x Hx]; [lia|].
    rewrite (Hbody start l x) by (done || lia). simpl.
    rewrite IH.
    + f_equal. apply list_eq. intros k. rewrite !list_lookup_imap.
      destruct (decide (k = start)) as [->|Hk].
      * rewrite list_lookup_insert_eq by lia. rewrite Hx. simpl.
        rewrite decide_False by lia. by rewrite decide_True by lia.
      * rewrite list_lookup_insert_ne by done.
        destruct (l !! k); simpl; [|done].
        repeat case_decide; try done; exfalso; lia.
    + rewrite length_insert. lia.
    + intros i l' x' Hi Hl' Hx' Hx''. rewrite length_insert in Hl'.
      rewrite list_lookup_insert_ne in Hx' by lia.
      apply Hbody; (done || lia).
Qed.

Lemma for_loop_all {A} (body : nat → list A → result (list A))
    (f : nat → A → A) (l : list A) :
  (∀ i l' x, length l' = length l → l !! i = Some x → l' !! i = Some x →
             body i l' = Ok (<[i := f i x]> l')) →
  for_loop body 0 (length l) l = Ok (imap f l).
Proof.
  intros Hbody. rewrite (for_loop_pointwise body f); [|done|].
  - f_equal. apply imap_ext. intros i x Hx.
    apply lookup_lt_Some in Hx. by rewrite decide_True by lia.
  - intros i l' x _. apply Hbody.
Qed.

Lemma mapM_zero_fill {T} `{Scalar T} (n : nat) (F : list (list T)) :
  sized n F →
  mapM (M := result) (zero_fill n) F = Ok ((λ _, zeros n) <$> F).
Proof.
  induction 1 as [|b F Hb _ IH]; simpl; [done|].
  rewrite zero_fill_full by done. simpl. by rewrite IH.
Qed.

(** ** Running a build step by step *)

Lemma Ok_bind {A B} (a : A) (k : A → result B) : (Ok a ≫= k) = k a.
Proof. done. Qed.

(** One step of a run whose first call has been evaluated. *)
Ltac run_step := rewrite Ok_bind; cbv beta; cbn [fst snd].

Lemma lookup_snoc {A} (l : list A) (x : A) (b : nat) :
  b = length l → (l ++ [x]) !! b = Some x.
Proof. intros ->. by rewrite lookup_app_r, Nat.sub_diag by lia. Qed.

Lemma insert_snoc {A} (l : list A) (x y : A) (b : nat) :
  b = length l → <[b := y]> (l ++ [x]) = l ++ [y].
Proof.
  intros ->. rewrite <-(Nat.add_0_r (length l)) at 1.
  by rewrite insert_app_r.
Qed.

(** A state written with the setters, field by field. *)
Ltac norm_state :=
  unfold set_K, set_JScalar, set_GD, set_fock, set_memManager, log;
  cbn [aoints memManager onePDM deltaOnePDM fock GD K JScalar trace].

(** Steps of a run on the transient buffer, the last block of the pool. *)
Ltac pool_step :=
  repeat first
    [ rewrite Ok_bind; cbv beta; cbn [fst snd]
    | rewrite lookup_snoc by done
    | rewrite insert_snoc by done
    | progress cbn [mjoin option_join of_option blocks available pool_content]
    | progress norm_state ].

(** ** Setters *)

Section Setters.
Context {T H : Type} {SC : Scalar T} {CE : CoreElement H}.
Implicit Types s : SingleSlater T H.

Lemma set_K_same s : set_K (K s) s = s.
Proof. by destruct s. Qed.
Lemma set_JScalar_same s : set_JScalar (JScalar s) s = s.
Proof. by destruct s. Qed.
Lemma set_GD_same s : set_GD (GD s) s = s.
Proof. by destruct s. Qed.
Lemma set_K_set_K K1 K2 s : set_K K2 (set_K K1 s) = set_K K2 s.
Proof. done. Qed.
End Setters.

(** ** formGD, phase by phase *)

Lemma insert_fmap_prefix {A} (g : A → A) (l : list A) (i : nat) (x : A) :
  l !! i = Some x →
  <[i := g x]> ((g <$> take i l) ++ drop i l)
  = (g <$> take (S i) l) ++ drop (S i) l.
Proof.
  intros Hx. assert (i < length l) by by eapply lookup_lt_Some.
  assert (length (g <$> take i l) = i) as Hlen
    by (rewrite length_fmap, length_take; lia).
  rewrite (take_S_r l i x), (drop_S l x i) by done.
  rewrite fmap_app. simpl.
  rewrite <-(Nat.add_0_r i) at 1. rewrite <-Hlen at 1.
  rewrite insert_app_r. simpl. by rewrite <-app_assoc.
Qed.

Section Phases.
Context {T H : Type} {SC : Scalar T} {CE : CoreElement H}.
Implicit Types s : SingleSlater T H.

Lemma density_at_lookup (increment : bool) s (i : nat) :
  i < length (if increment then deltaOnePDM s else onePDM s) →
  (if increment then deltaOnePDM s else onePDM s) !! i
  = Some (density_at increment s i).
Proof.
  intros Hi. unfold density_at.
  destruct (lookup_lt_is_Some_2 _ _ Hi) as [D ->]. done.
Qed.

Lemma formGD_requests_eq (increment : bool) (xHFX : double) (p : ptr) s :
  0 < length (K s) →
  length (K s) ≤ length (if increment then deltaOnePDM s else onePDM s) →
  sized (NB2 s) (K s) →
  (Z.of_nat (length (K s)) ≤ INT_MAX)%Z →
  formGD_requests increment xHFX p s
  = Ok (MkContraction (density_at increment s SCALAR) p true COULOMB
        :: (if exceeds xHFX thr_xHFX
            then imap (λ i _, MkContraction (density_at increment s i)
                                (KPtr i) true EXCHANGE) (K s)
            else []),
        set_K (K_before increment xHFX s) s).
Proof.
  intros Hpos HD HK Hint. unfold formGD_requests, K_before.
  rewrite density_at_lookup by (unfold SCALAR; lia). simpl.
  destruct (exceeds xHFX thr_xHFX); simpl; [|by destruct s].
  set (c0 := MkContraction (density_at increment s SCALAR) p true COULOMB).
  set (req := λ i, MkContraction (density_at increment s i) (KPtr i)
                     true EXCHANGE).
  destruct (for_int_inv
    (λ i st, st.1 = c0 :: imap (λ i _, req i) (take i (K s)) ∧
             st.2 = set_K (if increment then K s
                           else ((λ _, zeros (NB2 s)) <$> take i (K s))
                                ++ drop i (K s)) s)
    (formGD_exchange increment
       (if increment then deltaOnePDM s else onePDM s))
    (length (K s)) ([c0], s)) as ([c s'] & -> & Hc & Hs'); [done| | |].
  - simpl. split; [done|]. destruct increment; by destruct s.
  - intros i [c s0] Hi [Hc Hs0]; simpl in *. subst c s0.
    unfold formGD_exchange; simpl.
    rewrite density_at_lookup by lia. simpl.
    destruct (lookup_lt_is_Some_2 (K s) i Hi) as [k Hk].
    assert (length k = NB2 s) as Hklen
      by (by eapply (Forall_lookup_1 _ _ _ _ HK)).
    assert (imap (λ i _, req i) (take i (K s)) ++ [req i]
            = imap (λ i _, req i) (take (S i) (K s))) as Hreq.
    { rewrite (take_S_r _ _ _ Hk), imap_app. simpl.
      by rewrite length_take, Nat.min_l, Nat.add_0_r by lia. }
    destruct increment; simpl.
    + rewrite Hk. simpl. eexists; split; [done|]. simpl.
      by rewrite <-Hreq.
    + unfold zero_ptr; simpl.
      rewrite lookup_app_r by (rewrite length_fmap, length_take; lia).
      rewrite length_fmap, length_take, Nat.min_l by lia.
      rewrite Nat.sub_diag, lookup_drop, Nat.add_0_r, Hk. simpl.
      rewrite zero_fill_full by done. simpl.
      rewrite decide_True
        by (rewrite length_app, length_fmap, length_take, length_drop; lia).
      eexists; split; [done|]. simpl. split; [by rewrite <-Hreq|].
      unfold set_K; simpl. f_equal.
      exact (insert_fmap_prefix (λ _, zeros (NB2 s)) (K s) i k Hk).
  - simpl in *. subst c s'. do 2 f_equal.
    + by rewrite take_ge by lia.
    + destruct increment; simpl; [done|].
      by rewrite take_ge, drop_ge, app_nil_r by lia.
Qed.
End Phases.

Section Engine.
Context {T H : Type} {SC : Scalar T} {CE : CoreElement H}.
Implicit Types s : SingleSlater T H.

Lemma run_exchange_from (D : nat → list T) (l : list (list T)) :
  ∀ (start : nat) s,
    length (K s) = start + length l →
    run_requests
      (imap (λ i _, MkContraction (D (start + i)) (KPtr (start + i))
                      true EXCHANGE) l) s
    = Ok (set_K (imap (λ i k, if decide (start ≤ i)
                              then contracted (aoints s) EXCHANGE (D i) k else k)
                   (K s)) s).
Proof.
  induction l as [|x l IH]; intros start s Hlen; simpl in *.
  - f_equal. rewrite <-(set_K_same s) at 1. f_equal.
    apply list_eq. intros k. rewrite list_lookup_imap.
    destruct (K s !! k) eqn:Hk; simpl; [|done].
    apply lookup_lt_Some in Hk. by rewrite decide_False by lia.
  - unfold contract_one at 1. simpl. rewrite Nat.add_0_r.
    destruct (lookup_lt_is_Some_2 (K s) start) as [k Hk]; [lia|].
    rewrite Hk. simpl. rewrite decide_True by lia. simpl.
    erewrite (imap_ext _ (λ i _, MkContraction (D (S start + i))
                                   (KPtr (S start + i)) true EXCHANGE));
      [|by intros i y _; simpl; rewrite Nat.add_succ_r].
    rewrite IH by (simpl; rewrite length_insert; lia).
    simpl. f_equal. unfold set_K; simpl. f_equal.
    apply list_eq. intros n. rewrite !list_lookup_imap.
    destruct (decide (n = start)) as [->|Hn].
    + rewrite list_lookup_insert_eq by lia. rewrite Hk. simpl.
      rewrite decide_False by lia. by rewrite decide_True by lia.
    + rewrite list_lookup_insert_ne by done.
      destruct (K s !! n); simpl; [|done].
      repeat case_decide; try done; exfalso; lia.
Qed.

Lemma run_exchange (D : nat → list T) s :
  run_requests
    (imap (λ i _, MkContraction (D i) (KPtr i) true EXCHANGE) (K s)) s
  = Ok (set_K (imap (λ i k, contracted (aoints s) EXCHANGE (D i) k) (K s)) s).
Proof.
  etrans; [apply (run_exchange_from D (K s) 0 s eq_refl)|]. done.
Qed.
End Engine.

Section Combine.
Context {T H : Type} {SC : Scalar T} {CE : CoreElement H}.
Implicit Types s : SingleSlater T H.

Lemma sized_lookup {X} (n : nat) (l : list (list X)) (i : nat)
    (b : list X) :
  sized n l → l !! i = Some b → length b = n.
Proof. intros Hl Hb. by eapply (Forall_lookup_1 _ _ _ _ Hl). Qed.

(** An in-place [MatAdd] of a whole matrix with a matrix of type [T]. *)
Lemma MatAdd_TTT_inplace (NB : nat) (alpha beta : T) (k g : list T) :
  (Z.of_nat NB ≤ INT_MAX)%Z → length g = NB * NB → length k = NB * NB →
  MatAdd_TTT "N" "N" NB NB alpha SameAsC NB beta (Buffer k) NB g NB
  = Ok (zip_with (λ a b, axpby_T alpha a beta b) g k).
Proof.
  intros HNB Hg Hk. unfold MatAdd_TTT.
  rewrite MatAdd_full; simpl; [|done..|by rewrite length_fmap].
  f_equal. unfold promote, promote_self. by rewrite list_fmap_id.
Qed.

(** An in-place [MatAdd] of a whole matrix with a real matrix. *)
Lemma MatAdd_TdT_inplace (NB : nat) (alpha beta : T) (k : list double)
    (g : list T) :
  (Z.of_nat NB ≤ INT_MAX)%Z → length g = NB * NB → length k = NB * NB →
  MatAdd_TdT "N" "N" NB NB alpha SameAsC NB beta (Buffer k) NB g NB
  = Ok (zip_with (λ a b, axpby_T alpha a beta b) g (of_double <$> k)).
Proof.
  intros HNB Hg Hk. unfold MatAdd_TdT.
  rewrite MatAdd_full; simpl; [done|done..|by rewrite length_fmap].
Qed.

Lemma formGD_GD_eq (xHFX : double) s :
  (Z.of_nat (nBasis (aoints s)) ≤ INT_MAX)%Z →
  (Z.of_nat (length (fock s)) ≤ INT_MAX)%Z →
  length (GD s) = length (fock s) → length (K s) = length (fock s) →
  sized (NB2 s) (GD s) → sized (NB2 s) (K s) →
  formGD_GD xHFX s
  = Ok (set_GD
          (if exceeds xHFX thr_xHFX
           then imap (λ i g,
                        zip_with (λ a b, axpby_T (of_double 0%Qc) a
                                           (of_double (- xHFX)%Qc) b)
                          g (default [] (K s !! i))) (GD s)
           else (λ _, zeros (NB2 s)) <$> GD s) s).
Proof.
  intros HNB Hint HGD HK HsG HsK. unfold formGD_GD, for_int.
  rewrite HK, decide_True by done. rewrite decide_True by done.
  rewrite <-HGD.
  destruct (exceeds xHFX thr_xHFX).
  - rewrite (for_loop_all _
               (λ i g, zip_with (λ a b, axpby_T (of_double 0%Qc) a
                                          (of_double (- xHFX)%Qc) b)
                         g (default [] (K s !! i)))); [done|].
    intros i G' g HG' Hg Hg'.
    destruct (lookup_lt_is_Some_2 (K s) i) as [k Hk].
    { apply lookup_lt_Some in Hg. lia. }
    rewrite Hk. simpl. unfold update_at. rewrite Hg'. simpl.
    rewrite MatAdd_TTT_inplace; [done|done|..].
    + by apply (sized_lookup _ _ _ _ HsG Hg).
    + by apply (sized_lookup _ _ _ _ HsK Hk).
  - rewrite (for_loop_all _ (λ _ _, zeros (NB2 s))).
    + simpl. do 2 f_equal. apply list_eq. intros i.
      rewrite list_lookup_imap, list_lookup_fmap. by destruct (GD s !! i).
    + intros i G' g HG' Hg Hg'. unfold update_at. rewrite Hg'. simpl.
      rewrite zero_fill_full; [done|].
      by apply (sized_lookup _ _ _ _ HsG Hg).
Qed.

Lemma formGD_add_J_eq s :
  (Z.of_nat (nBasis (aoints s)) ≤ INT_MAX)%Z →
  0 < length (GD s) → sized (NB2 s) (GD s) → length (JScalar s) = NB2 s →
  formGD_add_J s
  = Ok (set_GD
          (<[SCALAR :=
               zip_with (λ a b, axpby_T (of_double 1%Qc) a
                                  (of_double 2%Qc) b)
                 (default [] (GD s !! SCALAR)) (of_double <$> JScalar s)]>
             (GD s)) s).
Proof.
  intros HNB Hpos HsG HJ. unfold formGD_add_J, update_at.
  destruct (lookup_lt_is_Some_2 (GD s) SCALAR Hpos) as [g Hg].
  rewrite Hg. simpl.
  rewrite MatAdd_TdT_inplace; [done|done| |done].
  by apply (sized_lookup _ _ _ _ HsG Hg).
Qed.
End Combine.

Section Contract.
Context {T H : Type} {SC : Scalar T} {CE : CoreElement H}.
Implicit Types s : SingleSlater T H.

Lemma well_formed_densities (increment : bool) s :
  well_formed s →
  length (if increment then deltaOnePDM s else onePDM s) = length (K s).
Proof.
  intros (_ & _ & _ & _ & _ & _ & _ & _ & _ & _ & _ & HK & HP & HD & _).
  destruct increment; lia.
Qed.

Lemma re_part_zeros (n : nat) :
  of_double <$> (re_part <$> zeros n) = zeros (T := T) n.
Proof.
  unfold zeros, sc_zero. rewrite !fmap_replicate.
  by rewrite re_of_double.
Qed.

Lemma contract_one_JScalar (D : list T) s :
  is_double (T := T) = true →
  contract_one (MkContraction D JScalarPtr true COULOMB) s
  = Ok (set_JScalar
          (re_part <$> contracted (aoints s) COULOMB D (of_double <$> JScalar s)) s).
Proof. intros Hd. unfold contract_one. simpl. by rewrite !Hd. Qed.

Lemma contract_one_pool (D : list T) (b : nat) (buf : list T) s :
  blocks (memManager s) !! b = Some (Some buf) →
  contract_one (MkContraction D (PoolPtr b) true COULOMB) s
  = Ok (set_memManager
          (MkMem (available (memManager s))
             (<[b := Some (contracted (aoints s) COULOMB D buf)]>
                (blocks (memManager s)))
             (pool_content (memManager s))) s).
Proof. intros Hb. unfold contract_one. simpl. by rewrite !Hb. Qed.

Lemma run_requests_cons (c : TwoBodyContraction T)
    (l : list (TwoBodyContraction T)) s :
  run_requests (c :: l) s = (s' ← contract_one c s; run_requests l s').
Proof. done. Qed.

Lemma formGD_zero_J_double (increment : bool) s :
  is_double (T := T) = true → length (JScalar s) = NB2 s →
  formGD_zero_J increment JScalarPtr s
  = Ok (set_JScalar (if increment then JScalar s
                     else re_part <$> zeros (NB2 s)) s).
Proof.
  intros Hd HJ. unfold formGD_zero_J, zero_ptr. rewrite Hd. simpl.
  destruct increment; simpl; [by rewrite set_JScalar_same|].
  rewrite ?Hd. simpl. rewrite zero_fill_full by by rewrite length_fmap.
  simpl. by rewrite ?Hd.
Qed.

Lemma K_contracted (increment : bool) (xHFX : double) s :
  exceeds xHFX thr_xHFX = true →
  imap (λ i k, contracted (aoints s) EXCHANGE (density_at increment s i) k)
    (K_before increment xHFX s)
  = K_after increment xHFX s.
Proof.
  intros Hx. unfold K_before, K_after. rewrite Hx. simpl.
  destruct increment; simpl; [done|].
  apply list_eq. intros i. rewrite !list_lookup_imap, list_lookup_fmap.
  by destruct (K s !! i).
Qed.

Lemma length_K_before (increment : bool) (xHFX : double) s :
  length (K_before increment xHFX s) = length (K s).
Proof.
  unfold K_before. destruct (_ && _); [by rewrite length_fmap|done].
Qed.

Lemma formGD_contract_double (increment : bool) (xHFX : double) s :
  is_double (T := T) = true → well_formed s →
  formGD_contract increment xHFX s
  = Ok (MkSingleSlater (aoints s) (memManager_after s) (onePDM s)
          (deltaOnePDM s) (fock s) (GD s) (K_after increment xHFX s)
          (JScalar_after increment s) (trace s ++ events increment xHFX s)).
Proof.
  intros Hd Hwf. pose proof (well_formed_densities increment s Hwf) as HD.
  destruct Hwf as (HNB & Hint & HJ & HsF & HsG & HsK & _ & _ & _ & Hpos
                   & HGD & HK & _).
  unfold formGD_contract, formGD_JContract. rewrite Hd.
  run_step. rewrite formGD_zero_J_double by done.
  set (J1 := if increment then JScalar s else re_part <$> zeros (NB2 s)).
  run_step.
  rewrite formGD_requests_eq; [|simpl; lia|simpl; lia|done|simpl; lia].
  run_step. unfold twoBodyContract.
  change (density_at increment (set_JScalar J1 s))
    with (density_at increment s).
  change (K_before increment xHFX (set_JScalar J1 s))
    with (K_before increment xHFX s).
  change (K (set_JScalar J1 s)) with (K s).
  rewrite run_requests_cons, contract_one_JScalar by done. run_step.
  assert (of_double <$> J1 = J_before increment s) as HJ1.
  { unfold J1, J_before. rewrite Hd.
    destruct increment; simpl; [done|]. apply re_part_zeros. }
  cbn [JScalar log set_K set_JScalar]. rewrite HJ1.
  unfold memManager_after, JScalar_after, events, requests, J_pointer.
  rewrite Hd.
  destruct (exceeds xHFX thr_xHFX) eqn:Hx.
  - etrans.
    { apply (f_equal (λ r, rbind r _)).
      apply (run_exchange_from (density_at increment s) (K s) 0).
      simpl. by rewrite length_K_before. }
    cbn [rbind]. unfold formGD_fold_J. rewrite Hd. cbn [negb].
    norm_state. rewrite app_nil_r.
    by rewrite <-(K_contracted increment xHFX s Hx).
  - cbn [run_requests]. run_step. unfold formGD_fold_J. rewrite Hd.
    cbn [negb]. norm_state. rewrite app_nil_r.
    unfold K_after, K_before. by rewrite Hx.
Qed.
Lemma length_contracted (ao : AOIntegrals T H) (kind : ContractionType)
    (D dest : list T) :
  length (contracted ao kind D dest) = length dest.
Proof. unfold contracted. by rewrite length_imap. Qed.

Lemma formGD_contract_complex (increment : bool) (xHFX : double) s :
  is_double (T := T) = false → well_formed s →
  formGD_contract increment xHFX s
  = Ok (MkSingleSlater (aoints s) (memManager_after s) (onePDM s)
          (deltaOnePDM s) (fock s) (GD s) (K_after increment xHFX s)
          (JScalar_after increment s) (trace s ++ events increment xHFX s)).
Proof.
  intros Hd Hwf. pose proof (well_formed_densities increment s Hwf) as HD.
  destruct Hwf as (HNB & Hint & HJ & HsF & HsG & HsK & _ & _ & _ & Hpos
                   & HGD & HK & _ & _ & _ & Hpool).
  specialize (Hpool Hd).
  set (b := length (blocks (memManager s))).
  set (Jc := J_contracted increment s).
  assert (J_before increment s = zeros (NB2 s)) as HJb.
  { unfold J_before. by rewrite Hd, andb_false_r. }
  assert (length Jc = NB2 s) as HJc.
  { unfold Jc, J_contracted. rewrite length_contracted, HJb.
    apply length_replicate. }
  unfold formGD_contract, formGD_JContract. rewrite Hd.
  unfold malloc, mem_malloc. rewrite decide_True by done.
  run_step. run_step. fold b.
  unfold formGD_zero_J. rewrite Hd, orb_true_r.
  unfold zero_ptr, load, store. norm_state. cbn [blocks available pool_content].
  rewrite lookup_snoc by done. cbn [mjoin option_join of_option].
  run_step. rewrite zero_fill_full
    by (by rewrite length_fmap, length_seq).
  run_step. rewrite insert_snoc by done. run_step.
  match goal with
  | |- context [formGD_requests increment xHFX (PoolPtr b) ?st] =>
      set (s1 := st)
  end.
  rewrite formGD_requests_eq; [|simpl; lia|simpl; lia|done|simpl; lia].
  run_step. unfold twoBodyContract.
  change (density_at increment s1) with (density_at increment s).
  change (K_before increment xHFX s1) with (K_before increment xHFX s).
  change (K s1) with (K s).
  rewrite run_requests_cons.
  rewrite (contract_one_pool _ b (zeros (NB2 s)))
    by (unfold s1; norm_state; cbn [blocks]; by apply lookup_snoc).
  run_step. unfold s1 at 1 2 3. norm_state.
  cbn [blocks available pool_content]. rewrite insert_snoc by done.
  change (contracted (aoints s) COULOMB (density_at increment s SCALAR)
            (zeros (NB2 s)))
    with (contracted (aoints s) COULOMB (density_at increment s SCALAR)
            (zeros (NB2 s))).
  rewrite <-HJb. fold (J_contracted increment s). fold Jc.
  match goal with
  | |- context [run_requests ?l ?st] => set (s2 := st); set (l2 := l)
  end.
  assert (run_requests l2 s2 = Ok (set_K (K_after increment xHFX s) s2))
    as ->.
  { unfold l2. destruct (exceeds xHFX thr_xHFX) eqn:Hx.
    - etrans.
      { apply (run_exchange_from (density_at increment s) (K s) 0).
        simpl. by rewrite length_K_before. }
      by rewrite <-(K_contracted increment xHFX s Hx).
    - cbn [run_requests]. unfold K_after, s2. norm_state.
      unfold K_before. by rewrite Hx. }
  run_step. unfold formGD_fold_J. rewrite Hd. cbn [negb].
  unfold memManager_after, JScalar_after, events. rewrite Hd. fold Jc.
  subst s2 s1 l2. unfold load, store.
  destruct increment; cbn [negb].
  - pool_step. rewrite MatAdd_TdT_inplace by done. pool_step.
    unfold GetMatRE. rewrite decide_True by done.
    rewrite block_update_full;
      [|rewrite length_zip_with, length_fmap; unfold NB2 in *; lia|done].
    pool_step. unfold free, mem_free. pool_step.
    rewrite length_zip_with, length_fmap.
    unfold requests, J_pointer. rewrite Hd.
    do 2 f_equal; [|by rewrite <-!app_assoc].
    f_equal. unfold NB2 in *. lia.
  - pool_step.
    unfold GetMatRE. rewrite decide_True by done.
    rewrite block_update_full by done.
    pool_step. unfold free, mem_free. pool_step.
    unfold requests, J_pointer. rewrite Hd.
    do 2 f_equal; [|by rewrite <-!app_assoc].
    f_equal. unfold NB2 in *. lia.
Qed.
End Contract.

(** ** formGD in closed form *)

Section FormGD.
Context {T H : Type} {SC : Scalar T} {CE : CoreElement H}.
Implicit Types s : SingleSlater T H.

Lemma length_zeros (n : nat) : length (zeros (T := T) n) = n.
Proof. apply length_replicate. Qed.

Lemma length_J_before (increment : bool) s :
  length (JScalar s) = NB2 s → length (J_before increment s) = NB2 s.
Proof.
  intros HJ. unfold J_before.
  destruct (_ && _); [by rewrite length_fmap|apply length_zeros].
Qed.

Lemma length_J_contracted (increment : bool) s :
  length (JScalar s) = NB2 s → length (J_contracted increment s) = NB2 s.
Proof.
  intros HJ. unfold J_contracted.
  by rewrite length_contracted, length_J_before.
Qed.

Lemma length_JScalar_after (increment : bool) s :
  length (JScalar s) = NB2 s → length (JScalar_after increment s) = NB2 s.
Proof.
  intros HJ. unfold JScalar_after.
  destruct (is_double (T := T)).
  - by rewrite length_fmap, length_J_contracted.
  - destruct increment.
    + rewrite !length_zip_with, length_fmap, length_J_contracted by done.
      lia.
    + rewrite length_zip_with, length_J_contracted by done. lia.
Qed.

Lemma length_K_after (increment : bool) (xHFX : double) s :
  length (K_after increment xHFX s) = length (K s).
Proof.
  unfold K_after. destruct (exceeds _ _); [by rewrite length_imap|done].
Qed.

Lemma sized_K_after (increment : bool) (xHFX : double) s :
  sized (NB2 s) (K s) → sized (NB2 s) (K_after increment xHFX s).
Proof.
  intros HK. unfold K_after. destruct (exceeds _ _); [|done].
  apply Forall_lookup. intros i b. rewrite list_lookup_imap.
  destruct (K s !! i) as [k|] eqn:Hk; simpl; [|done].
  intros [= <-]. rewrite length_contracted.
  destruct increment; [by eapply sized_lookup|apply length_zeros].
Qed.

Lemma length_GD_exchange (increment : bool) (xHFX : double) s :
  length (GD_exchange increment xHFX s) = length (GD s).
Proof.
  unfold GD_exchange.
  destruct (exceeds _ _); [by rewrite length_imap|by rewrite length_fmap].
Qed.

Lemma sized_GD_exchange (increment : bool) (xHFX : double) s :
  sized (NB2 s) (GD s) → sized (NB2 s) (K s) →
  length (K s) = length (GD s) →
  sized (NB2 s) (GD_exchange increment xHFX s).
Proof.
  intros HG HK Hlen. unfold GD_exchange. destruct (exceeds _ _) eqn:Hx.
  - apply Forall_lookup. intros i b. rewrite list_lookup_imap.
    destruct (GD s !! i) as [g|] eqn:Hg; simpl; [|done].
    intros [= <-]. rewrite length_zip_with.
    destruct (lookup_lt_is_Some_2 (K_after increment xHFX s) i) as [k Hk].
    { rewrite length_K_after, Hlen. by eapply lookup_lt_Some. }
    rewrite Hk. simpl.
    rewrite (sized_lookup _ _ _ _ HG Hg).
    rewrite (sized_lookup _ _ _ _ (sized_K_after increment xHFX s HK) Hk).
    lia.
  - apply Forall_fmap, Forall_true. intros g. simpl. apply length_zeros.
Qed.

Lemma formGD_contract_eq (increment : bool) (xHFX : double) s :
  well_formed s →
  formGD_contract increment xHFX s
  = Ok (MkSingleSlater (aoints s) (memManager_after s) (onePDM s)
          (deltaOnePDM s) (fock s) (GD s) (K_after increment xHFX s)
          (JScalar_after increment s) (trace s ++ events increment xHFX s)).
Proof.
  intros Hwf. destruct (is_double (T := T)) eqn:Hd.
  - by apply formGD_contract_double.
  - by apply formGD_contract_complex.
Qed.

Theorem formGD_eq (increment : bool) (xHFX : double) s :
  well_formed s →
  formGD increment xHFX s = Ok (formGD_result increment xHFX s).
Proof.
  intros Hwf. unfold formGD. rewrite formGD_contract_eq by done.
  destruct Hwf as (HNB & Hint & HJ & HsF & HsG & HsK & _ & _ & _ & Hpos
                   & HGD & HK & _).
  run_step.
  rewrite formGD_GD_eq;
    unfold NB2; cbn [aoints fock GD K]; fold (NB2 s);
    [|done|done|done|by rewrite length_K_after|done
     |by apply sized_K_after].
  run_step. fold (GD_exchange increment xHFX s).
  rewrite formGD_add_J_eq;
    unfold NB2; norm_state; fold (NB2 s);
    [done|done|by rewrite length_GD_exchange; lia
     |apply sized_GD_exchange; (done || lia)
     |by apply length_JScalar_after].
Qed.
End FormGD.

(** ** formFock in closed form *)

Lemma update_at_eq {A} (i : nat) (g : A → result A) (l : list A) (x y : A) :
  l !! i = Some x → g x = Ok y → update_at i g l = Ok (<[i := y]> l).
Proof. intros Hx Hy. unfold update_at. rewrite Hx. simpl. by rewrite Hy. Qed.

Section FormFock.
Context {T H : Type} {SC : Scalar T} {CE : CoreElement H}.
Implicit Types s : SingleSlater T H.

Lemma formFock_core_eq s :
  (Z.of_nat (length (fock s)) ≤ INT_MAX)%Z →
  sized (NB2 s) (fock s) → sized (NB2 s) (coreH (aoints s)) →
  0 < length (coreH (aoints s)) ≤ length (fock s) →
  formFock_core s = Ok (fock_core s).
Proof.
  intros Hint HsF HsH [Hpos Hle]. unfold formFock_core, fock_core.
  unfold SCALAR in *.
  rewrite mapM_zero_fill by done. run_step.
  destruct (lookup_lt_is_Some_2 (coreH (aoints s)) 0 Hpos) as [h0 Hh0].
  rewrite Hh0. cbn [of_option]. run_step.
  destruct (lookup_lt_is_Some_2 (fock s) 0) as [f0 Hf0]; [lia|].
  erewrite (update_at_eq 0 _ _ (zeros (NB2 s)));
    [|by rewrite list_lookup_fmap, Hf0|].
  2:{ unfold SetMatRE. rewrite decide_True by done.
      rewrite block_update_full;
        [done|apply (sized_lookup _ _ _ _ HsH Hh0)|apply length_zeros]. }
  run_step. unfold for_int_from. rewrite decide_True by lia.
  rewrite (for_loop_pointwise _
             (λ i x, zip_with (λ a b, with_im (1 * im_axis a)%Qc b)
                       (default [] (coreH (aoints s) !! i)) x)).
  - f_equal. apply list_eq. intros i.
    rewrite !list_lookup_imap. rewrite ?Hh0. cbn [default].
    destruct (decide (i = 0)) as [->|Hi].
    + rewrite list_lookup_insert_eq by (rewrite length_fmap; lia).
      rewrite Hf0. simpl. by rewrite ?decide_False by lia.
    + rewrite list_lookup_insert_ne by done. rewrite list_lookup_fmap.
      destruct (fock s !! i); simpl; [|done].
      repeat case_decide; try done; exfalso; lia.
  - rewrite length_insert, length_fmap. lia.
  - intros i F' x Hi HF' Hx Hx'.
    destruct (lookup_lt_is_Some_2 (coreH (aoints s)) i) as [h Hh];
      [lia|].
    rewrite Hh. cbn [of_option default]. run_step.
    unfold update_at. rewrite Hx'. cbn [of_option]. run_step.
    unfold SetMatIM. rewrite decide_True by done.
    rewrite block_update_full;
      [done|apply (sized_lookup _ _ _ _ HsH Hh)|].
    rewrite list_lookup_insert_ne in Hx by lia.
    rewrite list_lookup_fmap in Hx.
    destruct (fock s !! i); simplify_eq/=. apply length_zeros.
Qed.

Lemma formFock_GD_eq s (F : list (list T)) :
  (Z.of_nat (nBasis (aoints s)) ≤ INT_MAX)%Z →
  length F = length (fock s) → length (GD s) = length (fock s) →
  sized (NB2 s) F → sized (NB2 s) (GD s) →
  formFock_GD s F = Ok (fock_GD s F).
Proof.
  intros HNB HF HGD HsF HsG. unfold formFock_GD, for_ulong.
  rewrite <-HF.
  rewrite (for_loop_all _
             (λ i f, zip_with (λ a b, axpby_T (of_double 1%Qc) a
                                        (of_double 1%Qc) b)
                       f (default [] (GD s !! i)))); [done|].
  intros i F' f HF' Hf Hf'.
  destruct (lookup_lt_is_Some_2 (GD s) i) as [g Hg].
  { apply lookup_lt_Some in Hf. lia. }
  rewrite Hg. cbn [of_option default]. run_step.
  unfold update_at. rewrite Hf'. cbn [of_option]. run_step.
  rewrite MatAdd_TTT_inplace; [done|done|..].
  - apply (sized_lookup _ _ _ _ HsF Hf).
  - apply (sized_lookup _ _ _ _ HsG Hg).
Qed.

Lemma formFock_axis_eq s (dipole : cart_t) (iXYZ : nat)
    (F : list (list T)) :
  (Z.of_nat (nBasis (aoints s)) ≤ INT_MAX)%Z →
  0 < length F → sized (NB2 s) F →
  sized (NB2 s) (lenElecDipole (aoints s)) →
  iXYZ < length (lenElecDipole (aoints s)) →
  formFock_axis s dipole iXYZ F = Ok (fock_axis s dipole iXYZ F).
Proof.
  intros HNB Hpos HsF HsL Hi. unfold formFock_axis, fock_axis.
  destruct (exceeds _ _); [|done].
  destruct (lookup_lt_is_Some_2 _ _ Hi) as [L HL].
  rewrite HL. cbn [of_option default]. run_step.
  destruct (lookup_lt_is_Some_2 F 0 Hpos) as [f Hf].
  unfold update_at. rewrite Hf. cbn [of_option default]. run_step.
  rewrite MatAdd_TdT_inplace; [done|done|..].
  - apply (sized_lookup _ _ _ _ HsF Hf).
  - apply (sized_lookup _ _ _ _ HsL HL).
Qed.

Lemma sized_fock_axis s (dipole : cart_t) (iXYZ : nat)
    (F : list (list T)) :
  sized (NB2 s) F → sized (NB2 s) (lenElecDipole (aoints s)) →
  iXYZ < length (lenElecDipole (aoints s)) →
  sized (NB2 s) (fock_axis s dipole iXYZ F).
Proof.
  intros HsF HsL Hi. unfold fock_axis. destruct (exceeds _ _); [|done].
  destruct (lookup_lt_is_Some_2 _ _ Hi) as [L HL]. rewrite HL.
  destruct (F !! 0) as [f|] eqn:Hf.
  - apply Forall_insert; [done|]. simpl.
    rewrite length_zip_with, length_fmap.
    rewrite (sized_lookup _ _ _ _ HsF Hf), (sized_lookup _ _ _ _ HsL HL).
    lia.
  - by rewrite list_insert_ge by by apply lookup_ge_None.
Qed.

Lemma length_fock_axis s (dipole : cart_t) (iXYZ : nat)
    (F : list (list T)) :
  length (fock_axis s dipole iXYZ F) = length F.
Proof.
  unfold fock_axis. destruct (exceeds _ _); [|done].
  by rewrite length_insert.
Qed.

Lemma formFock_field_eq (pert : EMPerturbation) s (F : list (list T)) :
  (Z.of_nat (nBasis (aoints s)) ≤ INT_MAX)%Z →
  0 < length F → sized (NB2 s) F →
  sized (NB2 s) (lenElecDipole (aoints s)) →
  length (lenElecDipole (aoints s)) = 3 →
  formFock_field pert s F
  = Ok (fock_field pert s F,
        if decide (length (fields pert) ≠ 0) then log EvGetAmp s else s).
Proof.
  intros HNB Hpos HsF HsL HL. unfold formFock_field, fock_field.
  destruct (decide (length (fields pert) ≠ 0)); [|done].
  unfold for_int. rewrite decide_True by (unfold INT_MAX; lia).
  cbn [for_loop].
  change (nBasis (aoints (log EvGetAmp s))) with (nBasis (aoints s)).
  assert (∀ d i F', formFock_axis (log EvGetAmp s) d i F'
                    = formFock_axis s d i F') as Hlog by done.
  rewrite !Hlog.
  rewrite formFock_axis_eq by (done || lia). run_step. rewrite !Hlog.
  rewrite formFock_axis_eq;
    [|done|by rewrite length_fock_axis|apply sized_fock_axis; (done || lia)
     |done|lia].
  run_step. rewrite !Hlog.
  rewrite formFock_axis_eq;
    [done|done|by rewrite !length_fock_axis
     |repeat apply sized_fock_axis; (done || lia)|done|lia].
Qed.
End FormFock.

Section FormFock_eq.
Context {T H : Type} {SC : Scalar T} {CE : CoreElement H}.
Implicit Types s : SingleSlater T H.

Lemma length_GD_after (increment : bool) (xHFX : double) s :
  length (GD_after increment xHFX s) = length (GD s).
Proof. unfold GD_after. by rewrite length_insert, length_GD_exchange. Qed.

Lemma sized_GD_after (increment : bool) (xHFX : double) s :
  sized (NB2 s) (GD s) → sized (NB2 s) (K s) →
  length (K s) = length (GD s) → length (JScalar s) = NB2 s →
  sized (NB2 s) (GD_after increment xHFX s).
Proof.
  intros HG HK Hlen HJ. unfold GD_after.
  pose proof (sized_GD_exchange increment xHFX s HG HK Hlen) as HsG.
  destruct (GD_exchange increment xHFX s !! SCALAR) as [g|] eqn:Hg.
  - apply Forall_insert; [done|]. simpl.
    rewrite length_zip_with, length_fmap, length_JScalar_after by done.
    rewrite (sized_lookup _ _ _ _ HsG Hg). lia.
  - by rewrite list_insert_ge by by apply lookup_ge_None.
Qed.

Lemma well_formed_formGD_result (increment : bool) (xHFX : double) s :
  well_formed s → well_formed (formGD_result increment xHFX s).
Proof.
  intros (HNB & Hint & HJ & HsF & HsG & HsK & HsH & HsL & HL & Hpos
          & HGD & HK & HP & HD & HH & Hpool).
  unfold well_formed, formGD_result, NB2.
  cbn [aoints memManager onePDM deltaOnePDM fock GD K JScalar trace].
  fold (NB2 s).
  rewrite length_GD_after, length_K_after.
  repeat split; try done; try lia.
  - by apply length_JScalar_after.
  - apply sized_GD_after; (done || lia).
  - by apply sized_K_after.
  - intros Hd. unfold memManager_after. rewrite Hd. simpl. by apply Hpool.
Qed.

Lemma length_fock_core s : length (fock_core s) = length (fock s).
Proof. unfold fock_core. by rewrite length_imap. Qed.

Lemma sized_fock_core s :
  sized (NB2 s) (coreH (aoints s)) → 0 < length (coreH (aoints s)) →
  sized (NB2 s) (fock_core s).
Proof.
  intros HsH Hpos. unfold fock_core. apply Forall_lookup. intros i b.
  rewrite list_lookup_imap. destruct (fock s !! i); simpl; [|done].
  intros [= <-].
  assert (∀ j {X} (f : H → T → X),
            j < length (coreH (aoints s)) →
            length (zip_with f (default [] (coreH (aoints s) !! j))
                      (zeros (NB2 s))) = NB2 s) as Hz.
  { intros j X f Hj.
    destruct (lookup_lt_is_Some_2 _ _ Hj) as [h Hh]. rewrite Hh. simpl.
    rewrite length_zip_with, length_zeros, (sized_lookup _ _ _ _ HsH Hh).
    lia. }
  destruct (decide (i = SCALAR)) as [->|Hi]; [by apply Hz|].
  case_decide; [by apply Hz|apply length_zeros].
Qed.

Lemma length_fock_GD s (F : list (list T)) :
  length (fock_GD s F) = length F.
Proof. unfold fock_GD. by rewrite length_imap. Qed.

Lemma sized_fock_GD s (F : list (list T)) :
  sized (NB2 s) F → sized (NB2 s) (GD s) → length (GD s) = length F →
  sized (NB2 s) (fock_GD s F).
Proof.
  intros HsF HsG Hlen. unfold fock_GD. apply Forall_lookup. intros i b.
  rewrite list_lookup_imap. destruct (F !! i) as [f|] eqn:Hf; simpl; [|done].
  intros [= <-].
  destruct (lookup_lt_is_Some_2 (GD s) i) as [g Hg].
  { rewrite Hlen. by eapply lookup_lt_Some. }
  rewrite Hg. simpl. rewrite length_zip_with.
  rewrite (sized_lookup _ _ _ _ HsF Hf), (sized_lookup _ _ _ _ HsG Hg). lia.
Qed.

Lemma length_fock_field (pert : EMPerturbation) s (F : list (list T)) :
  length (fock_field pert s F) = length F.
Proof.
  unfold fock_field. case_decide; [|done]. by rewrite !length_fock_axis.
Qed.

Lemma sized_fock_field (pert : EMPerturbation) s (F : list (list T)) :
  sized (NB2 s) F → sized (NB2 s) (lenElecDipole (aoints s)) →
  length (lenElecDipole (aoints s)) = 3 →
  sized (NB2 s) (fock_field pert s F).
Proof.
  intros HsF HsL HL. unfold fock_field. case_decide; [|done].
  repeat apply sized_fock_axis; (done || lia).
Qed.

Lemma formFock_eq (pert : EMPerturbation) (increment : bool)
    (xHFX : double) s :
  well_formed s →
  formFock pert increment xHFX s
  = Ok (formFock_result pert increment xHFX s).
Proof.
  intros Hwf. unfold formFock. rewrite formGD_eq by done. run_step.
  pose proof (well_formed_formGD_result increment xHFX s Hwf) as Hwf1.
  unfold formFock_result.
  set (s1 := formGD_result increment xHFX s) in *.
  destruct Hwf1 as (HNB & Hint & HJ & HsF & HsG & HsK & HsH & HsL & HL
                    & Hpos & HGD & HK & HP & HD & HH & Hpool).
  rewrite formFock_core_eq by done. run_step.
  rewrite formFock_GD_eq;
    [|done|apply length_fock_core|done|apply sized_fock_core; (done || lia)
     |done].
  run_step.
  rewrite formFock_field_eq;
    [|done|by rewrite length_fock_GD, length_fock_core| |done|done].
  - run_step. case_decide; norm_state; [done|by rewrite app_nil_r].
  - apply sized_fock_GD;
      [apply sized_fock_core; (done || lia)|done
      |by rewrite length_fock_core].
Qed.

Lemma well_formed_formFock_result (pert : EMPerturbation)
    (increment : bool) (xHFX : double) s :
  well_formed s → well_formed (formFock_result pert increment xHFX s).
Proof.
  intros Hwf.
  pose proof (well_formed_formGD_result increment xHFX s Hwf) as Hwf1.
  unfold formFock_result.
  set (s1 := formGD_result increment xHFX s) in *.
  destruct Hwf1 as (HNB & Hint & HJ & HsF & HsG & HsK & HsH & HsL & HL
                    & Hpos & HGD & HK & HP & HD & HH & Hpool).
  unfold well_formed, NB2.
  cbn [aoints memManager onePDM deltaOnePDM fock GD K JScalar trace].
  fold (NB2 s1).
  rewrite length_fock_field, length_fock_GD, length_fock_core.
  repeat split; try done; try lia.
  apply sized_fock_field; [|done|done].
  apply sized_fock_GD;
    [apply sized_fock_core; (done || lia)|done|by rewrite length_fock_core].
Qed.
End FormFock_eq.

(** ** The concrete states are well formed *)

Lemma exceeds_false (x thr : double) :
  (Qcabs x ≤ thr)%Qc → exceeds x thr = false.
Proof.
  intros Hle. unfold exceeds. apply bool_decide_eq_false.
  by apply Qcle_not_lt.
Qed.

Lemma ss_d_well_formed : well_formed ss_d.
Proof.
  unfold well_formed, NB2, sized; simpl.
  repeat split; repeat constructor; try done; intros; unfold INT_MAX;
    simpl; lia.
Qed.

Lemma ss_z_well_formed : well_formed ss_z.
Proof.
  unfold well_formed, NB2, sized; simpl.
  repeat split; repeat constructor; try done; intros; unfold INT_MAX;
    simpl; lia.
Qed.

Lemma zero_negligible : (Qcabs (dbl 0) ≤ thr_xHFX)%Qc.
Proof. by vm_compute. Qed.

(** ** Negligible exchange *)

Section Negligible_exchange.
Context {T H : Type} {SC : Scalar T} {CE : CoreElement H}.
Implicit Types s : SingleSlater T H.

Lemma GD_after_negligible (increment : bool) (xHFX : double) s :
  exceeds xHFX thr_xHFX = false →
  0 < length (GD s) → length (JScalar s) = NB2 s →
  GD_after increment xHFX s
  = <[SCALAR := (λ j, sc_mul (of_double 2%Qc) (of_double j))
                  <$> JScalar_after increment s]>
      ((λ _, zeros (NB2 s)) <$> GD s).
Proof.
  intros Hx Hpos HJ. unfold GD_after, GD_exchange. rewrite Hx. f_equal.
  rewrite list_lookup_fmap.
  destruct (lookup_lt_is_Some_2 (GD s) SCALAR Hpos) as [g ->]. simpl.
  unfold zeros. rewrite zip_with_replicate_l
    by (by rewrite length_fmap, length_JScalar_after).
  rewrite <-list_fmap_compose. apply list_fmap_ext. intros _ j _. simpl.
  unfold axpby_T, sc_zero. by rewrite sc_mul_0_r, sc_add_0_l.
Qed.
End Negligible_exchange.



(** C10.  For every call to [formGD] with [|xHFX| <= 1e-12] the call
    returns with every exchange buffer [K[i]] exactly as it was on entry;
    so does a call to [formFock], which runs [formGD] first. *)
Theorem K_untouched_by_negligible_exchange {T H : Type} `{Scalar T}
    {CE : CoreElement H} (increment : bool) (xHFX : double)
    (s : SingleSlater T H) :
  well_formed s → (Qcabs xHFX ≤ thr_xHFX)%Qc →
  (∃ s', formGD increment xHFX s = Ok s' ∧ K s' = K s) ∧
  (∀ pert, ∃ s', formFock pert increment xHFX s = Ok s' ∧
                 K s' = K s).
Proof.
  intros Hwf Hx. apply exceeds_false in Hx. split.
  - exists (formGD_result increment xHFX s).
    split; [by apply formGD_eq|].
    simpl. unfold K_after. by rewrite Hx.
  - intros pert. exists (formFock_result pert increment xHFX s).
    split; [by apply formFock_eq|].
    simpl. unfold K_after. by rewrite Hx.
Qed.

Lemma K_untouched_by_negligible_exchange_witness :
  well_formed ss_d ∧ (Qcabs (dbl 0) ≤ thr_xHFX)%Qc ∧
  ∃ s', formGD false (dbl 0) ss_d = Ok s' ∧ K s' = K ss_d.
Proof.
  split; [exact ss_d_well_formed|]. split; [exact zero_negligible|].
  exact (proj1 (K_untouched_by_negligible_exchange (CE := core_as_real)
                  false (dbl 0) ss_d ss_d_well_formed zero_negligible)).
Defined.

(** ** The Coulomb buffer *)

Section Coulomb_buffer.
Context {T H : Type} `{Scalar T}.
Implicit Types s : SingleSlater T H.

Lemma live_blocks_released (m : CQMemManager T) (a : nat) :
  live_blocks (MkMem a (blocks m ++ [None]) (pool_content m))
  = live_blocks m.
Proof.
  unfold live_blocks. simpl.
  by rewrite imap_app, bind_app, app_nil_r.
Qed.

(** In either representation [JScalar] ends as the real part of the
    Coulomb contraction, added to what it held when incrementing. *)
Lemma JScalar_after_lookup (increment : bool) s (k : nat) (j : double) :
  length (JScalar s) = NB2 s → JScalar s !! k = Some j →
  JScalar_after increment s !! k
  = Some (if increment
          then (re_part (twoBody (aoints s) COULOMB
                           (density_at increment s SCALAR) k) + j)%Qc
          else re_part (twoBody (aoints s) COULOMB
                          (density_at increment s SCALAR) k)).
Proof.
  intros HJ Hj.
  assert (k < NB2 s) as Hk by (rewrite <-HJ; by eapply lookup_lt_Some).
  assert (zeros (T := T) (NB2 s) !! k = Some sc_zero) as Hz
    by by apply lookup_replicate_2.
  unfold JScalar_after, J_contracted, contracted, J_before.
  destruct (is_double (T := T)) eqn:Hd.
  - rewrite list_lookup_fmap, list_lookup_imap.
    destruct increment; simpl.
    + rewrite list_lookup_fmap, Hj. simpl.
      by rewrite re_add, re_of_double, Qcplus_comm.
    + rewrite Hz. simpl. unfold sc_zero. by rewrite sc_add_0_l.
  - rewrite andb_false_r. destruct increment.
    + rewrite !lookup_zip_with, list_lookup_imap, Hz, list_lookup_fmap, Hj.
      simpl. unfold axpby_T, sc_zero.
      by rewrite sc_add_0_l, !sc_mul_1_l, re_add, re_of_double,
        Qcmult_1_l.
    + rewrite lookup_zip_with, list_lookup_imap, Hz, Hj. simpl.
      unfold sc_zero. by rewrite sc_add_0_l, Qcmult_1_l.
Qed.
End Coulomb_buffer.

(** C7.  In [formGD] the buffer that receives the Coulomb contraction holds
    zeros when the contraction engine is called, unless [increment] is set
    and [T] is [double]: then the buffer is [JScalar] itself with the
    content it had on entry, and the contraction is accumulated onto it in
    place. *)
Theorem formGD_zero_J_unless_incrementing_double {T H : Type} `{Scalar T}
    (increment : bool) (xHFX : double) (s : SingleSlater T H) :
  well_formed s →
  ∃ p s0 s1 cs,
    formGD_JContract s = Ok (p, s0) ∧
    formGD_zero_J increment p s0 = Ok s1 ∧
    formGD_requests increment xHFX p s1 = Ok cs ∧
    head cs.1
    = Some (MkContraction (density_at increment s SCALAR) p true COULOMB) ∧
    load p cs.2
    = Ok (if increment && is_double (T := T) then of_double <$> JScalar s
          else zeros (NB2 s)) ∧
    (increment = true → is_double (T := T) = true →
     p = JScalarPtr ∧
     ∃ s', formGD increment xHFX s = Ok s' ∧
           ∀ k j, JScalar s !! k = Some j →
                  JScalar s' !! k
                  = Some (re_part (twoBody (aoints s) COULOMB
                                     (density_at increment s SCALAR) k)
                          + j)%Qc).
Proof.
  intros Hwf. pose proof (well_formed_densities increment s Hwf) as HD.
  pose proof Hwf as (HNB & Hint & HJ & HsF & HsG & HsK & _ & _ & _ & Hpos
                     & HGD & HK & _ & _ & _ & Hpool).
  destruct (is_double (T := T)) eqn:Hd.
  - exists JScalarPtr, s. eexists. eexists.
    split; [by unfold formGD_JContract; rewrite Hd|].
    split; [by apply formGD_zero_J_double|].
    split; [apply formGD_requests_eq; simpl; (done || lia)|].
    cbn [fst snd]. split; [done|]. split.
    + unfold load. rewrite Hd. norm_state. f_equal.
      destruct increment; simpl; [done|]. apply re_part_zeros.
    + intros -> _. split; [done|].
      exists (formGD_result true xHFX s).
      split; [by apply formGD_eq|].
      intros k j Hj. simpl. by rewrite (JScalar_after_lookup true s k j).
  - specialize (Hpool eq_refl).
    set (b := length (blocks (memManager s))).
    exists (PoolPtr b). eexists. eexists. eexists.
    split.
    { unfold formGD_JContract, malloc, mem_malloc. rewrite Hd.
      rewrite decide_True by done. pool_step. done. }
    split.
    { unfold formGD_zero_J, zero_ptr, load, store. rewrite Hd, orb_true_r.
      pool_step.
      rewrite zero_fill_full by (by rewrite length_fmap, length_seq).
      pool_step. done. }
    split; [apply formGD_requests_eq; simpl; (done || lia)|].
    cbn [fst snd]. split; [done|]. split.
    + rewrite andb_false_r. unfold load. by pool_step.
    + intros _ [=].
Qed.

Lemma formGD_zero_J_unless_incrementing_double_witness :
  well_formed ss_d ∧
  ∃ p s0 s1 cs,
    formGD_JContract ss_d = Ok (p, s0) ∧
    formGD_zero_J true p s0 = Ok s1 ∧
    formGD_requests true (dbl 1) p s1 = Ok cs ∧
    load p cs.2 = Ok (JScalar ss_d).
Proof.
  split; [exact ss_d_well_formed|].
  destruct (formGD_zero_J_unless_incrementing_double true (dbl 1) ss_d
              ss_d_well_formed)
    as (p & s0 & s1 & cs & H1 & H2 & H3 & _ & H5 & _).
  exists p, s0, s1, cs. repeat split; done.
Defined.



(** ** The Fock build *)

Lemma not_exceeds (x thr : double) :
  exceeds x thr = false → (Qcabs x ≤ thr)%Qc.
Proof.
  unfold exceeds. intros Hx. apply bool_decide_eq_false in Hx.
  by apply Qcnot_lt_le.
Qed.



Lemma fock_axis_negligible {T H : Type} {SC : Scalar T}
    (s : SingleSlater T H) (dipole : cart_t) (iXYZ : nat)
    (F : list (list T)) :
  (Qcabs (cart_get dipole iXYZ) ≤ thr_field)%Qc →
  fock_axis s dipole iXYZ F = F.
Proof. intros Hx. unfold fock_axis. by rewrite exceeds_false. Qed.

Lemma fock_axis_lookup_ne {T H : Type} {SC : Scalar T}
    (s : SingleSlater T H) (dipole : cart_t) (iXYZ : nat)
    (F : list (list T)) (i : nat) :
  0 < i → fock_axis s dipole iXYZ F !! i = F !! i.
Proof.
  intros Hi. unfold fock_axis. destruct (exceeds _ _); [|done].
  by rewrite list_lookup_insert_ne by lia.
Qed.



(** ** A full build twice *)

Lemma lookup_same_length {A B} (l1 : list A) (l2 : list B) (i : nat) :
  length l1 = length l2 →
  (∃ x y, l1 !! i = Some x ∧ l2 !! i = Some y) ∨
  (l1 !! i = None ∧ l2 !! i = None).
Proof.
  intros Hlen. destruct (decide (i < length l1)) as [Hi|Hi].
  - left. destruct (lookup_lt_is_Some_2 l1 i Hi) as [x Hx].
    destruct (lookup_lt_is_Some_2 l2 i) as [y Hy]; [lia|]. by exists x, y.
  - right. split; apply lookup_ge_None; lia.
Qed.

Lemma imap_same_length {A B C} (f : nat → A → C) (g : nat → B → C)
    (l1 : list A) (l2 : list B) :
  length l1 = length l2 →
  (∀ i x y, l1 !! i = Some x → l2 !! i = Some y → f i x = g i y) →
  imap f l1 = imap g l2.
Proof.
  intros Hlen Hfg. apply list_eq. intros i. rewrite !list_lookup_imap.
  destruct (lookup_same_length l1 l2 i Hlen) as [(x & y & Hx & Hy)|[Hx Hy]];
    rewrite Hx, Hy; simpl; [|done].
  f_equal. by apply Hfg.
Qed.

Lemma zip_with_same_length_l {A A' B C} (f : A → B → C) (g : A' → B → C)
    (l1 : list A) (l2 : list A') (k : list B) :
  length l1 = length l2 → (∀ a a' b, f a b = g a' b) →
  zip_with f l1 k = zip_with g l2 k.
Proof.
  intros Hlen Hfg. apply list_eq. intros i. rewrite !lookup_zip_with.
  destruct (lookup_same_length l1 l2 i Hlen) as [(x & y & Hx & Hy)|[Hx Hy]];
    rewrite Hx, Hy; simpl; [|done].
  destruct (k !! i); simpl; [|done]. f_equal. apply Hfg.
Qed.

Lemma zip_with_same_length_r {A B B' C} (f : A → B → C) (g : A → B' → C)
    (l : list A) (k1 : list B) (k2 : list B') :
  length k1 = length k2 → (∀ a b b', f a b = g a b') →
  zip_with f l k1 = zip_with g l k2.
Proof.
  intros Hlen Hfg. apply list_eq. intros i. rewrite !lookup_zip_with.
  destruct (l !! i); simpl; [|done].
  destruct (lookup_same_length k1 k2 i Hlen) as [(x & y & Hx & Hy)|[Hx Hy]];
    rewrite Hx, Hy; simpl; [|done].
  f_equal. apply Hfg.
Qed.

Section Idempotent.
Context {T H : Type} {SC : Scalar T} {CE : CoreElement H}.
Implicit Types s : SingleSlater T H.

Lemma NB2_same s s' : aoints s' = aoints s → NB2 s' = NB2 s.
Proof. unfold NB2. by intros ->. Qed.

Lemma density_at_same s s' (i : nat) :
  onePDM s' = onePDM s → density_at false s' i = density_at false s i.
Proof. unfold density_at. by intros ->. Qed.

Lemma K_after_same (xHFX : double) s s' :
  same_inputs s s' → exceeds xHFX thr_xHFX = true →
  K_after false xHFX s' = K_after false xHFX s.
Proof.
  intros (Hao & HP & _ & _ & HK & _) Hx. unfold K_after. rewrite Hx.
  apply imap_same_length; [done|]. intros i k k' _ _.
  by rewrite Hao, (NB2_same _ _ Hao), (density_at_same _ _ _ HP).
Qed.

Lemma J_contracted_same s s' :
  same_inputs s s' → J_contracted false s' = J_contracted false s.
Proof.
  intros (Hao & HP & _). unfold J_contracted, J_before. simpl.
  by rewrite Hao, (NB2_same _ _ Hao), (density_at_same _ _ _ HP).
Qed.

Lemma JScalar_after_same s s' :
  same_inputs s s' → JScalar_after false s' = JScalar_after false s.
Proof.
  intros Hsame. pose proof Hsame as (_ & _ & _ & _ & _ & HJ & _).
  unfold JScalar_after. rewrite (J_contracted_same s s' Hsame).
  destruct (is_double (T := T)); [done|].
  by apply zip_with_same_length_r.
Qed.

Lemma GD_exchange_same (xHFX : double) s s' :
  same_inputs s s' →
  GD_exchange false xHFX s' = GD_exchange false xHFX s.
Proof.
  intros Hsame.
  pose proof Hsame as (Hao & _ & _ & HG & _ & _ & HsG & HsG').
  unfold GD_exchange. destruct (exceeds xHFX thr_xHFX) eqn:Hx.
  - rewrite (K_after_same xHFX s s' Hsame Hx).
    apply imap_same_length; [done|]. intros i g' g Hg' Hg.
    apply zip_with_same_length_l.
    + by rewrite (sized_lookup _ _ _ _ HsG Hg),
        (sized_lookup _ _ _ _ HsG' Hg').
    + intros a a' b. unfold axpby_T. by rewrite !sc_mul_0_l.
  - rewrite (NB2_same _ _ Hao).
    apply list_eq. intros i. rewrite !list_lookup_fmap.
    by destruct (lookup_same_length (GD s') (GD s) i HG)
      as [(x & y & -> & ->)|[-> ->]].
Qed.

Lemma GD_after_same (xHFX : double) s s' :
  same_inputs s s' → GD_after false xHFX s' = GD_after false xHFX s.
Proof.
  intros Hsame. unfold GD_after.
  by rewrite (GD_exchange_same xHFX s s' Hsame),
    (JScalar_after_same s s' Hsame).
Qed.

Lemma fock_core_same s s' :
  aoints s' = aoints s → length (fock s') = length (fock s) →
  fock_core s' = fock_core s.
Proof.
  intros Hao HF. unfold fock_core.
  apply imap_same_length; [done|]. intros i f' f _ _.
  by rewrite Hao, (NB2_same _ _ Hao).
Qed.

Lemma fock_after_same (pert : EMPerturbation) (xHFX : double) s s' :
  same_inputs s s' →
  fock (formFock_result pert false xHFX s')
  = fock (formFock_result pert false xHFX s).
Proof.
  intros Hsame. pose proof Hsame as (Hao & _ & HF & _).
  unfold formFock_result.
  cbn [aoints memManager onePDM deltaOnePDM fock GD K JScalar trace].
  rewrite (fock_core_same (formGD_result false xHFX s)
             (formGD_result false xHFX s')) by done.
  unfold fock_field, fock_axis, fock_GD, formGD_result.
  cbn [aoints memManager onePDM deltaOnePDM fock GD K JScalar trace].
  by rewrite (GD_after_same xHFX s s' Hsame), Hao.
Qed.

Lemma same_inputs_formFock_result (pert : EMPerturbation) (xHFX : double) s :
  well_formed s → same_inputs s (formFock_result pert false xHFX s).
Proof.
  intros Hwf.
  pose proof Hwf as (HNB & Hint & HJ & HsF & HsG & HsK & HsH & HsL & HL
                     & Hpos & HGD & HK & HP & HD & HH & Hpool).
  unfold same_inputs, formFock_result, formGD_result.
  cbn [aoints memManager onePDM deltaOnePDM fock GD K JScalar trace].
  rewrite length_fock_field, length_fock_GD, length_fock_core.
  cbn [aoints memManager onePDM deltaOnePDM fock GD K JScalar trace].
  rewrite length_GD_after, length_K_after, length_JScalar_after by done.
  repeat split; try done.
  apply sized_GD_after; (done || lia).
Qed.
End Idempotent.



(** ** The time at which the field is evaluated *)

(** Whatever [t] is, the descriptor handed to the Fock build is the one of
    the time stored in [curState]; the increment flag is handed on as it
    is. *)
Remark RealTime_formFock_call_eq {T H : Type} (rt : RealTime T H)
    (increment : bool) (t : double) :
  RealTime_formFock_call rt increment t
  = (getPert (pert rt) (curState_xTime rt), increment).
Proof. done. Qed.

(** C3 fails on the code.  Called with [t = 1] on a state whose stored time
    is [0], [RealTime::formFock] hands to the Fock build the field of time
    [0], which is not the field of the time [t] it was given; the increment
    flag is handed on unchanged. *)
Theorem RealTime_formFock_ignores_t :
  (RealTime_formFock_call rt_ramp false (dbl 1)).1
  = getPert (pert rt_ramp) (dbl 0) ∧
  (RealTime_formFock_call rt_ramp false (dbl 1)).1
  ≠ getPert (pert rt_ramp) (dbl 1) ∧
  (RealTime_formFock_call rt_ramp false (dbl 1)).2 = false.
Proof.
  split; [done|]. split; [|done].
  simpl. unfold getPert. simpl. intros Heq.
  by injection Heq.
Qed.

(** ** MatAdd: frame, empty blocks, aliasing and teams *)

(** An offset either is that of an element of the block, or of none. *)
Lemma block_cases (M N LDC k : nat) :
  M ≤ LDC →
  (∃ i j, i < M ∧ j < N ∧ k = i + j * LDC) ∨
  (∀ i j, i < M → j < N → k ≠ i + j * LDC).
Proof.
  intros HM. destruct (decide (LDC = 0)) as [->|Hpos].
  { right. intros i j Hi. lia. }
  destruct (decide (k mod LDC < M ∧ k / LDC < N)) as [[Hi Hj]|Hn].
  - left. exists (k mod LDC), (k / LDC). split; [done|]. split; [done|].
    rewrite (Nat.div_mod_eq k LDC) at 1. lia.
  - right. intros i j Hi Hj ->. apply Hn.
    rewrite Nat.Div0.mod_add, Nat.div_add by done.
    rewrite Nat.mod_small, Nat.div_small by lia. lia.
Qed.

(** Two buffers that agree on the block and on its complement are equal. *)
Lemma block_frame_eq {X} (M N LDC : nat) (v : nat → nat → option X)
    (C0 C1 C2 : list X) :
  M ≤ LDC →
  (∀ i j, i < M → j < N → C1 !! (i + j * LDC) = v i j) →
  (∀ i j, i < M → j < N → C2 !! (i + j * LDC) = v i j) →
  (∀ k, (∀ i j, i < M → j < N → k ≠ i + j * LDC) → C1 !! k = C0 !! k) →
  (∀ k, (∀ i j, i < M → j < N → k ≠ i + j * LDC) → C2 !! k = C0 !! k) →
  C1 = C2.
Proof.
  intros HM H1 H2 F1 F2. apply list_eq. intros k.
  destruct (block_cases M N LDC k HM) as [(i & j & Hi & Hj & ->)|Hout].
  - by rewrite H1, H2.
  - by rewrite F1, F2.
Qed.

Lemma in_extent_mono (M N N' LD len : nat) :
  N' ≤ N → in_extent M N LD len → in_extent M N' LD len.
Proof. intros HN Hext i j Hi Hj. apply Hext; lia. Qed.

Lemma sum_list_0 (l : list nat) : sum_list l = 0 → Forall (λ c, c = 0) l.
Proof.
  induction l as [|c l IH]; simpl; intros Hs; constructor; [lia|].
  apply IH. lia.
Qed.

Section MatAdd_more.
Context {F1 F2 S1 S2 T : Type} `{Scalar T}.
Context {PA : Promote F1 T} {PB : Promote F2 T}.
Context {PS1 : Promote S1 T} {PS2 : Promote S2 T}.
Variables (M LDA LDB LDC : nat) (ALPHA : S1) (BETA : S2).

(** A block without rows: the loop over [i] never runs. *)
Lemma MatAdd_thread_no_rows (A : operand F1) (B : operand F2) (count : nat)
    (C : list T) :
  MatAdd_thread 0 ALPHA A LDA BETA B LDB LDC C count = Ok C.
Proof.
  unfold MatAdd_thread.
  assert (∀ j st, MatAdd_column 0 ALPHA A LDA BETA B LDB LDC j st
                  = Ok (Cursors (locA st.1 + LDA) (locB st.1 + LDB)
                          (locC st.1 + LDC), st.2)) as Hcol.
  { intros j st. unfold MatAdd_column, for_int.
    by rewrite decide_True by (unfold INT_MAX; lia). }
  assert (∀ start loc,
            ∃ loc', for_loop (MatAdd_column 0 ALPHA A LDA BETA B LDB LDC)
                      start count (loc, C) = Ok (loc', C)) as Hloop.
  { induction count as [|n IH]; intros start loc; cbn [for_loop].
    - by eexists.
    - rewrite Hcol. apply IH. }
  destruct (Hloop 0 (Cursors 0 0 0)) as [loc' Hrun].
  by rewrite Hrun.
Qed.

Lemma MatAdd_team_no_rows (A : operand F1) (B : operand F2)
    (team : list nat) (C : list T) :
  MatAdd_team 0 ALPHA A LDA BETA B LDB LDC C team = Ok C.
Proof.
  induction team as [|c team IH]; simpl; [done|].
  by rewrite MatAdd_thread_no_rows.
Qed.

(** A team without iterations. *)
Lemma MatAdd_team_no_columns (A : operand F1) (B : operand F2)
    (team : list nat) (C : list T) :
  Forall (λ c, c = 0) team →
  MatAdd_team M ALPHA A LDA BETA B LDB LDC C team = Ok C.
Proof.
  induction 1 as [|c team -> _ IH]; simpl; [done|]. apply IH.
Qed.

(** What a thread leaves when the operands are buffers of their own does
    not depend on what the destination held inside the block. *)
Lemma MatAdd_thread_after_thread (a : list F1) (b : list F2)
    (c1 c2 : nat) (C : list T) :
  (Z.of_nat M ≤ INT_MAX)%Z → M ≤ LDC →
  in_extent M (c1 `max` c2) LDC (length C) →
  in_extent M (c1 `max` c2) LDA (length a) →
  in_extent M (c1 `max` c2) LDB (length b) →
  ∃ C1, MatAdd_thread M ALPHA (Buffer a) LDA BETA (Buffer b) LDB LDC C c1
        = Ok C1 ∧
        length C1 = length C ∧
        MatAdd_thread M ALPHA (Buffer a) LDA BETA (Buffer b) LDB LDC C1 c2
        = MatAdd_thread M ALPHA (Buffer a) LDA BETA (Buffer b) LDB LDC C
            (c1 `max` c2).
Proof.
  intros HM HLDC HC Ha Hb.
  destruct (MatAdd_thread_all M c1 LDA LDB LDC ALPHA BETA (Buffer a)
              (Buffer b) C) as (C1 & Hrun1 & Hlen1 & Hblock1 & Hframe1);
    [done|by eapply in_extent_mono; [|done]; lia
     |by eapply in_extent_mono; [|exact Ha]; lia
     |by eapply in_extent_mono; [|exact Hb]; lia|done|].
  exists C1. split; [done|]. split; [done|].
  destruct (MatAdd_thread_all M c2 LDA LDB LDC ALPHA BETA (Buffer a)
              (Buffer b) C1) as (C2 & -> & Hlen2 & Hblock2 & Hframe2);
    [done|rewrite Hlen1; by eapply in_extent_mono; [|done]; lia
     |by eapply in_extent_mono; [|exact Ha]; lia
     |by eapply in_extent_mono; [|exact Hb]; lia|done|].
  destruct (MatAdd_thread_all M (c1 `max` c2) LDA LDB LDC ALPHA BETA
              (Buffer a) (Buffer b) C) as (C3 & -> & Hlen3 & Hblock3 & Hframe3);
    [done..|].
  f_equal.
  apply (block_frame_eq M (c1 `max` c2) LDC
           (MatAdd_value LDA LDB ALPHA BETA (Buffer a) (Buffer b) C) C);
    [done| | | |].
  - intros i j Hi Hj. destruct (decide (j < c2)) as [Hj2|Hj2].
    + rewrite Hblock2 by done.
      by rewrite decide_True by (unfold stored; lia).
    + rewrite Hframe2.
      * rewrite Hblock1 by lia.
        by rewrite decide_True by (unfold stored; lia).
      * intros i' j' Hi' Hj' Heq.
        destruct (block_index_inj M LDC HLDC i j i' j'); [done..|]. lia.
  - intros i j Hi Hj. rewrite Hblock3 by done.
    by rewrite decide_True by (unfold stored; lia).
  - intros k Hk. rewrite Hframe2, Hframe1; [done| |].
    + intros i j Hi Hj. apply Hk; lia.
    + intros i j Hi Hj. apply Hk; lia.
  - intros k Hk. by apply Hframe3.
Qed.

(** A team leaves what its thread with the longest share leaves. *)
Lemma MatAdd_team_longest (a : list F1) (b : list F2) (team : list nat) :
  (Z.of_nat M ≤ INT_MAX)%Z → M ≤ LDC →
  in_extent M (max_list team) LDA (length a) →
  in_extent M (max_list team) LDB (length b) →
  ∀ C, in_extent M (max_list team) LDC (length C) →
       MatAdd_team M ALPHA (Buffer a) LDA BETA (Buffer b) LDB LDC C team
       = MatAdd_thread M ALPHA (Buffer a) LDA BETA (Buffer b) LDB LDC C
           (max_list team).
Proof.
  intros HM HLDC. induction team as [|c team IH]; intros Ha Hb C HC.
  { done. }
  simpl in *.
  destruct (MatAdd_thread_after_thread a b c (max_list team) C)
    as (C1 & -> & Hlen & <-); [done..|]. simpl.
  apply IH.
  - by eapply in_extent_mono; [|exact Ha]; lia.
  - by eapply in_extent_mono; [|exact Hb]; lia.
  - rewrite Hlen. by eapply in_extent_mono; [|exact HC]; lia.
Qed.
End MatAdd_more.

(** X1.  For every call [MatAdd('N','N',M,N,...)] run by one thread whose
    destination columns do not overlap ([M <= LDC]) and whose matrices lie
    inside their buffers: the call returns, the destination buffer keeps
    its extent, and every element of it that is not an element [(i,j)],
    [i < M], [j < N], of the block (the rows [M <= i < LDC] of each column
    and everything behind the last column) is exactly as it was on entry. *)
Theorem MatAdd_NN_frame {F1 F2 S1 S2 T : Type} `{Scalar T}
    {PA : Promote F1 T} {PB : Promote F2 T}
    {PS1 : Promote S1 T} {PS2 : Promote S2 T}
    (M N : nat) (ALPHA : S1) (A : operand F1) (LDA : nat) (BETA : S2)
    (B : operand F2) (LDB : nat) (C : list T) (LDC : nat) :
  (Z.of_nat M ≤ INT_MAX)%Z → (Z.of_nat N ≤ INT_MAX)%Z →
  M ≤ LDC →
  in_extent M N LDC (length C) →
  readable M N LDA LDC A →
  readable M N LDB LDC B →
  ∃ C', MatAdd serial "N" "N" M N ALPHA A LDA BETA B LDB C LDC = Ok C' ∧
        length C' = length C ∧
        ∀ k, (∀ i j, i < M → j < N → k ≠ i + j * LDC) → C' !! k = C !! k.
Proof.
  intros HM HN HLDC HC HA HB.
  destruct (MatAdd_serial_inv M N LDA LDB LDC ALPHA BETA A B C
              HLDC HC HA HB HM HN) as (C' & Hrun & Hlen & _ & Hframe).
  by exists C'.
Qed.

Lemma MatAdd_NN_frame_witness :
  ∃ C', MatAdd_d serial "N" "N" 1 2 (dbl 1) (Buffer A22) 2 (dbl 2)
          (Buffer B22) 2 Z22 2 = Ok C' ∧
        length C' = length Z22 ∧
        ∀ k, (∀ i j, i < 1 → j < 2 → k ≠ i + j * 2) → C' !! k = Z22 !! k.
Proof.
  apply (MatAdd_NN_frame (T := double) (PA := promote_self double)
           (PB := promote_self double) (PS1 := promote_self double)
           (PS2 := promote_self double)
           1 2 (dbl 1) (Buffer A22) 2 (dbl 2) (Buffer B22) 2 Z22 2).
  - unfold INT_MAX; lia.
  - unfold INT_MAX; lia.
  - lia.
  - intros i j Hi Hj; simpl; lia.
  - intros i j Hi Hj; simpl; lia.
  - intros i j Hi Hj; simpl; lia.
Defined.

(** X2.  A call [MatAdd('N','N',M,N,...)] with [M = 0] or [N = 0] returns
    with the destination exactly as it was and reads no element of [A] or
    [B], whatever the buffers and leading dimensions are (the operands may
    even be empty), for every team among whose threads the [N] iterations
    of the column loop are shared out. *)
Theorem MatAdd_empty_block {F1 F2 S1 S2 T : Type} `{Scalar T}
    {PA : Promote F1 T} {PB : Promote F2 T}
    {PS1 : Promote S1 T} {PS2 : Promote S2 T}
    (omp : worksharing) (M N : nat) (ALPHA : S1) (A : operand F1) (LDA : nat)
    (BETA : S2) (B : operand F2) (LDB : nat) (C : list T) (LDC : nat) :
  (Z.of_nat N ≤ INT_MAX)%Z → sum_list (omp N) = N → M = 0 ∨ N = 0 →
  MatAdd omp "N" "N" M N ALPHA A LDA BETA B LDB C LDC = Ok C.
Proof.
  intros HN Hsum Hempty. unfold MatAdd.
  rewrite decide_True by done. rewrite decide_True by done.
  destruct Hempty as [->| ->].
  - apply MatAdd_team_no_rows.
  - apply MatAdd_team_no_columns. by apply sum_list_0.
Qed.

Lemma MatAdd_empty_block_witness :
  MatAdd_d two_threads "N" "N" 2 0 (dbl 1) (Buffer []) 2 (dbl 2) (Buffer []) 2
    Z22 2 = Ok Z22.
Proof.
  apply (MatAdd_empty_block (T := double) (PA := promote_self double)
           (PB := promote_self double) (PS1 := promote_self double)
           (PS2 := promote_self double)
           two_threads 2 0 (dbl 1) (Buffer []) 2 (dbl 2) (Buffer []) 2 Z22 2).
  - unfold INT_MAX; lia.
  - reflexivity.
  - right; reflexivity.
Defined.

(** X3.  Passing the destination pointer itself as [A] (with the leading
    dimension of [C]), as every call of the Fock build does, gives the same
    result as passing a separate copy of the destination's content: for a
    call run by one thread with [M <= LDC] and the matrices inside their
    buffers, both calls return the same buffer. *)
Theorem MatAdd_inplace_as_copy {F2 S1 S2 T : Type} `{Scalar T}
    {PB : Promote F2 T} {PS1 : Promote S1 T} {PS2 : Promote S2 T}
    (M N : nat) (ALPHA : S1) (BETA : S2) (B : operand F2) (LDB : nat)
    (C : list T) (LDC : nat) :
  (Z.of_nat M ≤ INT_MAX)%Z → (Z.of_nat N ≤ INT_MAX)%Z →
  M ≤ LDC →
  in_extent M N LDC (length C) →
  readable M N LDB LDC B →
  ∃ C', MatAdd (PA := promote_self T) serial "N" "N" M N ALPHA SameAsC LDC
          BETA B LDB C LDC = Ok C' ∧
        MatAdd (PA := promote_self T) serial "N" "N" M N ALPHA (Buffer C) LDC
          BETA B LDB C LDC = Ok C'.
Proof.
  intros HM HN HLDC HC HB.
  destruct (MatAdd_serial_inv (PA := promote_self T) M N LDC LDB LDC ALPHA
              BETA SameAsC B C HLDC HC eq_refl HB HM HN)
    as (C1 & Hrun1 & _ & Hblock1 & Hframe1).
  destruct (MatAdd_serial_inv (PA := promote_self T) M N LDC LDB LDC ALPHA
              BETA (Buffer C) B C HLDC HC HC HB HM HN)
    as (C2 & Hrun2 & _ & Hblock2 & Hframe2).
  exists C1. split; [done|]. rewrite Hrun2. f_equal.
  apply (block_frame_eq M N LDC
           (MatAdd_value (PA := promote_self T) LDC LDB ALPHA BETA SameAsC B C)
           C); [done| | |done|done].
  - intros i j Hi Hj. rewrite Hblock2 by done.
    rewrite decide_True by (unfold stored; lia).
    unfold MatAdd_value. simpl. unfold promote, promote_self.
    by destruct (C !! (i + j * LDC)).
  - intros i j Hi Hj. rewrite Hblock1 by done.
    by rewrite decide_True by (unfold stored; lia).
Qed.

Lemma MatAdd_inplace_as_copy_witness :
  ∃ C', MatAdd_zdz serial "N" "N" 2 2 (dbl 1, dbl 0) SameAsC 2
          (dbl 2, dbl 0) (Buffer B22) 2 C22z 2 = Ok C' ∧
        MatAdd_zdz serial "N" "N" 2 2 (dbl 1, dbl 0) (Buffer C22z) 2
          (dbl 2, dbl 0) (Buffer B22) 2 C22z 2 = Ok C'.
Proof.
  apply (MatAdd_inplace_as_copy (T := dcomplex) (PB := promote_real dcomplex)
           (PS1 := promote_self dcomplex) (PS2 := promote_self dcomplex)
           2 2 (dbl 1, dbl 0) (dbl 2, dbl 0) (Buffer B22) 2 C22z 2).
  - unfold INT_MAX; lia.
  - unfold INT_MAX; lia.
  - lia.
  - intros i j Hi Hj; simpl; lia.
  - intros i j Hi Hj; simpl; lia.
Defined.

(** X4.  The cursors [locA], [locB], [locC] are set to the base pointers
    inside the parallel region and moved on once per iteration a thread
    runs, so each thread of a team works on the leading columns, however
    the iterations are shared out.  For operands in buffers of their own,
    [M <= LDC] and the matrices inside their buffers, a call run by a team
    returns exactly what a call run by one thread returns when it is asked
    for as many columns as the longest share of the team has. *)
Theorem MatAdd_team_as_longest_share {F1 F2 S1 S2 T : Type} `{Scalar T}
    {PA : Promote F1 T} {PB : Promote F2 T}
    {PS1 : Promote S1 T} {PS2 : Promote S2 T}
    (omp : worksharing) (M N : nat) (ALPHA : S1) (a : list F1) (LDA : nat)
    (BETA : S2) (b : list F2) (LDB : nat) (C : list T) (LDC : nat) :
  (Z.of_nat M ≤ INT_MAX)%Z → (Z.of_nat N ≤ INT_MAX)%Z →
  M ≤ LDC →
  max_list (omp N) ≤ N →
  in_extent M N LDC (length C) →
  in_extent M N LDA (length a) →
  in_extent M N LDB (length b) →
  MatAdd omp "N" "N" M N ALPHA (Buffer a) LDA BETA (Buffer b) LDB C LDC
  = MatAdd serial "N" "N" M (max_list (omp N)) ALPHA (Buffer a) LDA
      BETA (Buffer b) LDB C LDC.
Proof.
  intros HM HN HLDC Hmax HC Ha Hb. unfold MatAdd, serial.
  do 4 (rewrite decide_True by (done || lia)).
  rewrite (MatAdd_team_longest M LDA LDB LDC ALPHA BETA a b (omp N) HM HLDC)
    by (by eapply in_extent_mono; [|done]).
  cbn [MatAdd_team].
  by destruct (MatAdd_thread M ALPHA (Buffer a) LDA BETA (Buffer b) LDB LDC C
                 (max_list (omp N))).
Qed.

Lemma MatAdd_team_as_longest_share_witness :
  MatAdd_d two_threads "N" "N" 2 2 (dbl 1) (Buffer A22) 2 (dbl 2)
    (Buffer B22) 2 Z22 2
  = MatAdd_d serial "N" "N" 2 1 (dbl 1) (Buffer A22) 2 (dbl 2)
      (Buffer B22) 2 Z22 2.
Proof.
  apply (MatAdd_team_as_longest_share (T := double)
           (PA := promote_self double) (PB := promote_self double)
           (PS1 := promote_self double) (PS2 := promote_self double)
           two_threads 2 2 (dbl 1) A22 2 (dbl 2) B22 2 Z22 2).
  - unfold INT_MAX; lia.
  - unfold INT_MAX; lia.
  - lia.
  - vm_compute; lia.
  - intros i j Hi Hj; simpl; lia.
  - intros i j Hi Hj; simpl; lia.
  - intros i j Hi Hj; simpl; lia.
Defined.

(** X5.  With a team of two threads that are given the two halves of the
    column loop, operands in buffers of their own, [M <= LDC] and the
    matrices inside their buffers, the call returns with the sums stored in
    the first [N - N/2] columns only: every element of the columns
    [N - N/2 <= j < N] is exactly as it was on entry. *)
Theorem MatAdd_two_threads_columns {F1 F2 S1 S2 T : Type} `{Scalar T}
    {PA : Promote F1 T} {PB : Promote F2 T}
    {PS1 : Promote S1 T} {PS2 : Promote S2 T}
    (M N : nat) (ALPHA : S1) (a : list F1) (LDA : nat)
    (BETA : S2) (b : list F2) (LDB : nat) (C : list T) (LDC : nat) :
  (Z.of_nat M ≤ INT_MAX)%Z → (Z.of_nat N ≤ INT_MAX)%Z →
  M ≤ LDC →
  in_extent M N LDC (length C) →
  in_extent M N LDA (length a) →
  in_extent M N LDB (length b) →
  ∃ C', MatAdd two_threads "N" "N" M N ALPHA (Buffer a) LDA BETA (Buffer b)
          LDB C LDC = Ok C' ∧
        (∀ i j, i < M → j < N - N / 2 →
           C' !! (i + j * LDC)
           = MatAdd_value LDA LDB ALPHA BETA (Buffer a) (Buffer b) C i j) ∧
        (∀ i j, i < M → N - N / 2 ≤ j < N →
           C' !! (i + j * LDC) = C !! (i + j * LDC)).
Proof.
  intros HM HN HLDC HC Ha Hb.
  assert (N / 2 ≤ N - N / 2) as Hhalf.
  { pose proof (Nat.div_mod_eq N 2). lia. }
  assert (max_list (two_threads N) = N - N / 2) as Hmax.
  { unfold two_threads. cbn -[Nat.div Nat.sub Nat.max]. lia. }
  unfold MatAdd. rewrite decide_True by done. rewrite decide_True by done.
  rewrite (MatAdd_team_longest M LDA LDB LDC ALPHA BETA a b (two_threads N)
             HM HLDC)
    by (rewrite Hmax; by eapply in_extent_mono; [|done]; lia).
  rewrite Hmax.
  destruct (MatAdd_thread_all M (N - N / 2) LDA LDB LDC ALPHA BETA (Buffer a)
              (Buffer b) C) as (C' & Hrun & _ & Hblock & Hframe);
    [done|by eapply in_extent_mono; [|exact HC]; lia
     |by eapply in_extent_mono; [|exact Ha]; lia
     |by eapply in_extent_mono; [|exact Hb]; lia|done|].
  exists C'. split; [done|]. split.
  - intros i j Hi Hj. rewrite Hblock by done.
    by rewrite decide_True by (unfold stored; lia).
  - intros i j Hi Hj. apply Hframe. intros i' j' Hi' Hj' Heq.
    destruct (block_index_inj M LDC HLDC i j i' j'); [done..|]. lia.
Qed.

Lemma MatAdd_two_threads_columns_witness :
  ∃ C', MatAdd_d two_threads "N" "N" 2 2 (dbl 1) (Buffer A22) 2 (dbl 2)
          (Buffer B22) 2 Z22 2 = Ok C' ∧
        (∀ i j, i < 2 → j < 2 - 2 / 2 →
           C' !! (i + j * 2)
           = MatAdd_value (PA := promote_self double)
               (PB := promote_self double) (PS1 := promote_self double)
               (PS2 := promote_self double) 2 2 (dbl 1) (dbl 2)
               (Buffer A22) (Buffer B22) Z22 i j) ∧
        (∀ i j, i < 2 → 2 - 2 / 2 ≤ j < 2 →
           C' !! (i + j * 2) = Z22 !! (i + j * 2)).
Proof.
  apply (MatAdd_two_threads_columns (T := double)
           (PA := promote_self double) (PB := promote_self double)
           (PS1 := promote_self double) (PS2 := promote_self double)
           2 2 (dbl 1) A22 2 (dbl 2) B22 2 Z22 2).
  - unfold INT_MAX; lia.
  - unfold INT_MAX; lia.
  - lia.
  - intros i j Hi Hj; simpl; lia.
  - intros i j Hi Hj; simpl; lia.
  - intros i j Hi Hj; simpl; lia.
Defined.

(** ** valarray2array *)

Lemma copy_n_all {T} (x arr : list T) :
  length arr = length x → copy_n x (length x) arr = Ok x.
Proof.
  intros Hlen. unfold copy_n.
  destruct (for_loop_inv
              (λ i out, i ≤ length x ∧ out = take i x ++ drop i arr)
              (λ i out,
                 v ← of_option (x !! i);
                 if decide (i < length out) then Ok (<[i := v]> out)
                 else Halt UndefinedBehaviour) (length x) 0 arr)
    as (out & -> & _ & ->).
  - split; [lia|]. by rewrite take_0, drop_0.
  - intros i out Hi [_ ->].
    destruct (lookup_lt_is_Some_2 x i) as [v Hv]; [lia|]. rewrite Hv. simpl.
    assert (length (take i x ++ drop i arr) = length x) as Hl.
    { rewrite length_app, length_take, length_drop. lia. }
    rewrite decide_True by lia. eexists. split; [done|]. split; [lia|].
    rewrite (take_S_r x i v Hv).
    rewrite insert_app_r_alt by (rewrite length_take; lia).
    rewrite length_take, Nat.min_l by lia. rewrite Nat.sub_diag.
    destruct (lookup_lt_is_Some_2 arr i) as [w Hw]; [lia|].
    rewrite (drop_S arr w i Hw). simpl. by rewrite <-app_assoc.
  - simpl. rewrite firstn_all, drop_ge by lia. by rewrite app_nil_r.
Qed.

(** X6.  [valarray2array<N,T>(x)] stops in its assertion exactly when the
    valarray does not hold [N] elements; when it does and [N > 0], it
    returns an array with exactly the elements of [x], in order, whatever
    the array held before the copy; for [N = 0] and an empty valarray the
    expression [&x[0]] indexes an empty valarray. *)
Theorem valarray2array_copies {T} (N : nat) (arr0 : nat → T) (x : list T) :
  valarray2array N arr0 x
  = if decide (length x = N)
    then if decide (0 < N) then Ok x else Halt UndefinedBehaviour
    else Halt AssertionFailed.
Proof.
  unfold valarray2array. destruct (decide (length x = N)) as [<-|]; [|done].
  destruct x as [|v x]; [done|].
  rewrite decide_True by (simpl; lia).
  change ((v :: x) !! 0) with (Some v). cbn [of_option].
  rewrite Ok_bind.
  apply copy_n_all. by rewrite length_fmap, length_seq.
Qed.

(** ** CQMiscOptions: the postfix and the amount of the message *)

Lemma floor_log10_digits_bounds (digits : nat) :
  ∀ mem : Z,
    (1 ≤ mem < 10 ^ Z.of_nat digits)%Z →
    (0 ≤ floor_log10_digits digits mem)%Z ∧
    (10 ^ floor_log10_digits digits mem ≤ mem
     < 10 ^ (floor_log10_digits digits mem + 1))%Z.
Proof.
  induction digits as [|d IH]; intros mem Hmem.
  { simpl in Hmem. lia. }
  cbn [floor_log10_digits]. destruct (decide (mem < 10)%Z) as [Hlt|Hge].
  { simpl. lia. }
  rewrite Nat2Z.inj_succ, Z.pow_succ_r in Hmem by lia.
  assert (1 ≤ mem / 10 < 10 ^ Z.of_nat d)%Z as Hdiv.
  { split.
    - apply Z.div_le_lower_bound; lia.
    - apply Z.div_lt_upper_bound; lia. }
  destruct (IH (mem / 10)%Z Hdiv) as (Hpos & Hlo & Hhi).
  pose proof (Z.div_mod mem 10 ltac:(lia)) as Heq.
  pose proof (Z.mod_pos_bound mem 10 ltac:(lia)) as Hmod.
  split; [lia|].
  replace (1 + floor_log10_digits d (mem / 10) + 1)%Z
    with (Z.succ (floor_log10_digits d (mem / 10) + 1)) by lia.
  replace (1 + floor_log10_digits d (mem / 10))%Z
    with (Z.succ (floor_log10_digits d (mem / 10))) by lia.
  rewrite !Z.pow_succ_r by lia. lia.
Qed.

Lemma SIZE_MAX_digits : (SIZE_MAX < 10 ^ Z.of_nat 20)%Z.
Proof. by vm_compute. Qed.

(** The index of the postfix is the number of the block of four decimal
    orders of magnitude the size lies in. *)
Lemma postfix_index (mem k : Z) :
  (0 ≤ k)%Z → (1 ≤ mem ≤ SIZE_MAX)%Z →
  (10 ^ (4 * k) ≤ mem < 10 ^ (4 * k + 4))%Z →
  (floor_log10 mem / 4 = k)%Z.
Proof.
  intros Hk Hmem [Hlo Hhi]. pose proof SIZE_MAX_digits as Hmax.
  destruct (floor_log10_digits_bounds 20 mem) as (Hpos & HLlo & HLhi); [lia|].
  fold (floor_log10 mem) in *.
  assert (4 * k < floor_log10 mem + 1)%Z as H1.
  { apply (Z.pow_lt_mono_r_iff 10); lia. }
  assert (floor_log10 mem < 4 * k + 4)%Z as H2.
  { apply (Z.pow_lt_mono_r_iff 10); lia. }
  symmetry. apply (Z.div_unique_pos _ 4 k (floor_log10 mem - 4 * k)); lia.
Qed.

(** X7.  On a [size_t] the index [floor(log10(mem))/4] never runs past the
    five characters of [" KMGT"]: for every pool size from 1 to [SIZE_MAX]
    the postfix of the message is one of the characters [' '], ['K'], ['M'],
    ['G'], ['T'].  For a pool of 0 bytes the logarithm is minus infinity
    and the index has no value. *)
Theorem CQMiscOptions_postfix_in_range (mem : Z) :
  (0 ≤ mem ≤ SIZE_MAX)%Z →
  (mem = 0%Z → CQMiscOptions_postfix mem = Halt UndefinedBehaviour) ∧
  ((0 < mem)%Z →
   ∃ c, CQMiscOptions_postfix mem = Ok c ∧
        c ∈ [" "; "K"; "M"; "G"; "T"]%char).
Proof.
  intros Hmem. split; [by intros ->|]. intros Hpos.
  unfold CQMiscOptions_postfix. rewrite decide_True by done.
  assert (SIZE_MAX < 10 ^ 20)%Z as Hmax by by vm_compute.
  destruct (decide (mem < 10 ^ 4)%Z).
  { rewrite (postfix_index mem 0) by (simpl; lia).
    eexists. split; [done|]. repeat constructor. }
  destruct (decide (mem < 10 ^ 8)%Z).
  { rewrite (postfix_index mem 1) by (simpl; lia).
    eexists. split; [done|]. repeat constructor. }
  destruct (decide (mem < 10 ^ 12)%Z).
  { rewrite (postfix_index mem 2) by (simpl; lia).
    eexists. split; [done|]. repeat constructor. }
  destruct (decide (mem < 10 ^ 16)%Z).
  { rewrite (postfix_index mem 3) by (simpl; lia).
    eexists. split; [done|]. repeat constructor. }
  rewrite (postfix_index mem 4) by (simpl; lia).
  eexists. split; [done|]. repeat constructor.
Qed.

Lemma CQMiscOptions_postfix_in_range_witness :
  (0 ≤ 256000000 ≤ SIZE_MAX)%Z ∧
  ∃ c, CQMiscOptions_postfix 256000000 = Ok c ∧
       c ∈ [" "; "K"; "M"; "G"; "T"]%char.
Proof.
  assert (0 ≤ 256000000 ≤ SIZE_MAX)%Z as Hmem by (unfold SIZE_MAX; lia).
  split; [exact Hmem|].
  apply (proj2 (CQMiscOptions_postfix_in_range 256000000 Hmem)). lia.
Defined.

(** X8.  For a pool of [mem] bytes, [1 <= mem < 2^53] (the sizes a [double]
    holds exactly), the message names the amount as follows: below [10^4]
    bytes the postfix is [' '] and the amount is [mem]; from [10^4] up to
    [10^8] it is ['K'] with [mem/10^3] (rounded down); from [10^8] up to
    [10^12] it is ['M'] with [mem/10^6]; from [10^12] on it is ['G'] with
    [mem/10^9].  The unit changes every four orders of magnitude, not
    every three. *)
Theorem CQMiscOptions_message_amount (mem : Z) :
  (1 ≤ mem < 2 ^ 53)%Z →
  ∃ c, CQMiscOptions_postfix mem = Ok c ∧
       ((mem < 10 ^ 4)%Z →
        c = " "%char ∧ CQMiscOptions_memPrint c mem = mem) ∧
       ((10 ^ 4 ≤ mem < 10 ^ 8)%Z →
        c = "K"%char ∧ CQMiscOptions_memPrint c mem = (mem / 10 ^ 3)%Z) ∧
       ((10 ^ 8 ≤ mem < 10 ^ 12)%Z →
        c = "M"%char ∧ CQMiscOptions_memPrint c mem = (mem / 10 ^ 6)%Z) ∧
       ((10 ^ 12 ≤ mem)%Z →
        c = "G"%char ∧ CQMiscOptions_memPrint c mem = (mem / 10 ^ 9)%Z).
Proof.
  intros Hmem.
  assert (2 ^ 53 < 10 ^ 16)%Z as H53 by by vm_compute.
  assert (2 ^ 53 < SIZE_MAX)%Z as Hmax by by vm_compute.
  unfold CQMiscOptions_postfix. rewrite decide_True by lia.
  destruct (decide (mem < 10 ^ 4)%Z).
  { rewrite (postfix_index mem 0) by (simpl; lia).
    eexists. split; [done|]. repeat split; intros; (done || lia). }
  destruct (decide (mem < 10 ^ 8)%Z).
  { rewrite (postfix_index mem 1) by (simpl; lia).
    eexists. split; [done|]. repeat split; intros; (done || lia). }
  destruct (decide (mem < 10 ^ 12)%Z).
  { rewrite (postfix_index mem 2) by (simpl; lia).
    eexists. split; [done|]. repeat split; intros; (done || lia). }
  rewrite (postfix_index mem 3) by (simpl; lia).
  eexists. split; [done|]. repeat split; intros; (done || lia).
Qed.

Lemma CQMiscOptions_message_amount_witness :
  (1 ≤ 256000000 < 2 ^ 53)%Z ∧
  CQMiscOptions_postfix 256000000 = Ok "M"%char ∧
  CQMiscOptions_memPrint "M" 256000000 = 256%Z.
Proof.
  assert (1 ≤ 256000000 < 2 ^ 53)%Z as Hmem by lia.
  split; [exact Hmem|].
  destruct (CQMiscOptions_message_amount 256000000 Hmem)
    as (c & Hc & _ & _ & HM & _).
  destruct HM as [-> HP]; [lia|].
  split; [exact Hc|]. rewrite HP. reflexivity.
Defined.



(** ** The Fock build: invariant, frame and exchange *)

Ltac state_fields :=
  cbn [aoints memManager onePDM deltaOnePDM fock GD K JScalar trace].

Section Fock_more.
Context {T H : Type} {SC : Scalar T} {CE : CoreElement H}.
Implicit Types s : SingleSlater T H.

Lemma well_formed_set_onePDM (D : list (list T)) s :
  well_formed s → length D = length (fock s) →
  well_formed (set_onePDM D s).
Proof.
  intros (HNB & Hint & HJ & HsF & HsG & HsK & HsH & HsL & HL
          & Hpos & HGD & HK & HP & HD & HH & Hpool) HlD.
  unfold well_formed, set_onePDM, NB2 in *. state_fields.
  repeat split; (done || lia).
Qed.

Lemma well_formed_set_deltaOnePDM (D : list (list T)) s :
  well_formed s → length D = length (fock s) →
  well_formed (set_deltaOnePDM D s).
Proof.
  intros (HNB & Hint & HJ & HsF & HsG & HsK & HsH & HsL & HL
          & Hpos & HGD & HK & HP & HD & HH & Hpool) HlD.
  unfold well_formed, set_deltaOnePDM, NB2 in *. state_fields.
  repeat split; (done || lia).
Qed.

Lemma length_fock_formFock_result (pert : EMPerturbation) (increment : bool)
    (xHFX : double) s :
  length (fock (formFock_result pert increment xHFX s)) = length (fock s).
Proof.
  unfold formFock_result. state_fields.
  by rewrite length_fock_field, length_fock_GD, length_fock_core.
Qed.

(** [GD] is a function of [K] and [JScalar] as the contraction leaves
    them: what it held before does not matter. *)
Lemma GD_after_congr (inc inc' : bool) (xHFX : double) s s' :
  aoints s' = aoints s → length (GD s') = length (GD s) →
  sized (NB2 s) (GD s) → sized (NB2 s) (GD s') →
  K_after inc' xHFX s' = K_after inc xHFX s →
  JScalar_after inc' s' = JScalar_after inc s →
  GD_after inc' xHFX s' = GD_after inc xHFX s.
Proof.
  intros Hao HG HsG HsG' HK HJ. unfold GD_after. rewrite HJ.
  assert (GD_exchange inc' xHFX s' = GD_exchange inc xHFX s) as ->; [|done].
  unfold GD_exchange. rewrite HK. destruct (exceeds xHFX thr_xHFX).
  - apply imap_same_length; [done|]. intros i g' g Hg' Hg.
    apply zip_with_same_length_l.
    + by rewrite (sized_lookup _ _ _ _ HsG Hg),
        (sized_lookup _ _ _ _ HsG' Hg').
    + intros a a' b. unfold axpby_T. by rewrite !sc_mul_0_l.
  - rewrite (NB2_same _ _ Hao).
    apply list_eq. intros i. rewrite !list_lookup_fmap.
    by destruct (lookup_same_length (GD s') (GD s) i HG)
      as [(x & y & -> & ->)|[-> ->]].
Qed.

(** The Fock buffers are a function of the integrals, the field and [GD]
    as [formGD] leaves it. *)
Lemma fock_result_congr (pert : EMPerturbation) (inc inc' : bool)
    (xHFX : double) s s' :
  aoints s' = aoints s → length (fock s') = length (fock s) →
  GD_after inc' xHFX s' = GD_after inc xHFX s →
  fock (formFock_result pert inc' xHFX s')
  = fock (formFock_result pert inc xHFX s).
Proof.
  intros Hao HF HGD. unfold formFock_result. state_fields.
  rewrite (fock_core_same (formGD_result inc xHFX s)
             (formGD_result inc' xHFX s')) by done.
  unfold fock_field, fock_axis, fock_GD, formGD_result. state_fields.
  by rewrite HGD, Hao.
Qed.

(** The exchange buffers after a build with exchange, element by
    element. *)
Lemma K_after_lookup (increment : bool) (xHFX : double) s (i k : nat)
    (kb : list T) (kv : T) :
  exceeds xHFX thr_xHFX = true → sized (NB2 s) (K s) →
  K s !! i = Some kb → kb !! k = Some kv →
  ∃ kb', K_after increment xHFX s !! i = Some kb' ∧
         length kb' = NB2 s ∧
         kb' !! k
         = Some (if increment
                 then sc_add kv (twoBody (aoints s) EXCHANGE
                                   (density_at true s i) k)
                 else twoBody (aoints s) EXCHANGE (density_at false s i) k).
Proof.
  intros Hx HsK Hkb Hkv. pose proof (sized_lookup _ _ _ _ HsK Hkb) as Hlen.
  assert (k < NB2 s) as Hk by (rewrite <-Hlen; by eapply lookup_lt_Some).
  unfold K_after. rewrite Hx, list_lookup_imap, Hkb. simpl.
  eexists. split; [done|]. split.
  { rewrite length_contracted. destruct increment; [done|].
    apply length_zeros. }
  unfold contracted. rewrite list_lookup_imap. destruct increment.
  - by rewrite Hkv.
  - unfold zeros. rewrite lookup_replicate_2 by done. simpl.
    unfold sc_zero. by rewrite sc_add_0_l.
Qed.
(** [GD] after a build with exchange, element by element. *)
Lemma GD_after_exchange_lookup (increment : bool) (xHFX : double) s
    (i k : nat) (kb : list T) (kv : T) (j : double) :
  well_formed s → exceeds xHFX thr_xHFX = true →
  K_after increment xHFX s !! i = Some kb → kb !! k = Some kv →
  JScalar_after increment s !! k = Some j →
  ∃ g, GD_after increment xHFX s !! i = Some g ∧
       g !! k
       = Some (if decide (i = SCALAR)
               then sc_add (sc_mul (of_double (- xHFX)%Qc) kv)
                      (sc_mul (of_double 2%Qc) (of_double j))
               else sc_mul (of_double (- xHFX)%Qc) kv).
Proof.
  intros Hwf Hex Hkb Hkv Hj.
  pose proof Hwf as (_ & _ & HJ & _ & HsG & HsK & _ & _ & _ & Hpos & HGD
                     & HK & _).
  assert (i < length (GD s)) as Hi.
  { apply lookup_lt_Some in Hkb. rewrite length_K_after in Hkb. lia. }
  destruct (lookup_lt_is_Some_2 (GD s) i Hi) as [g0 Hg0].
  pose proof (sized_lookup _ _ _ _ HsG Hg0) as Hlg0.
  pose proof (sized_lookup _ _ _ _ (sized_K_after increment xHFX s HsK) Hkb)
    as Hlkb.
  assert (k < NB2 s) as Hk by (rewrite <-Hlkb; by eapply lookup_lt_Some).
  destruct (lookup_lt_is_Some_2 g0 k) as [gv Hgv]; [lia|].
  assert (GD_exchange increment xHFX s !! i
          = Some (zip_with (λ a b, axpby_T (of_double 0%Qc) a
                                     (of_double (- xHFX)%Qc) b) g0 kb))
    as Hex_i.
  { unfold GD_exchange. rewrite Hex, list_lookup_imap, Hg0. simpl.
    by rewrite Hkb. }
  assert (zip_with (λ a b, axpby_T (of_double 0%Qc) a
                             (of_double (- xHFX)%Qc) b) g0 kb !! k
          = Some (sc_mul (of_double (- xHFX)%Qc) kv)) as Hex_k.
  { rewrite lookup_zip_with, Hgv, Hkv. simpl. unfold axpby_T.
    by rewrite sc_mul_0_l, sc_add_0_l. }
  unfold GD_after. destruct (decide (i = SCALAR)) as [->|Hne].
  - rewrite list_lookup_insert_eq
      by (rewrite length_GD_exchange; unfold SCALAR; lia).
    eexists. split; [done|].
    rewrite Hex_i. simpl.
    rewrite lookup_zip_with, Hex_k, list_lookup_fmap, Hj. simpl.
    unfold axpby_T. by rewrite sc_mul_1_l.
  - rewrite list_lookup_insert_ne by done.
    eexists. split; [exact Hex_i|exact Hex_k].
Qed.
End Fock_more.

(** X10.  [formGD] and [formFock] keep the invariant of the state object:
    called on a state whose matrices are all [NB]×[NB], with one matrix per
    component, three dipole matrices and (for complex [T]) a pool that can
    serve [NB*NB] elements, each returns, and the state it leaves is again
    such a state.  Builds can therefore be chained without any of them
    running out of a buffer or of the pool. *)
Theorem Fock_build_keeps_well_formed {T H : Type} {SC : Scalar T}
    {CE : CoreElement H} (pert : EMPerturbation) (increment : bool)
    (xHFX : double) (s : SingleSlater T H) :
  well_formed s →
  (∃ s', formGD increment xHFX s = Ok s' ∧ well_formed s') ∧
  (∃ s', formFock pert increment xHFX s = Ok s' ∧ well_formed s').
Proof.
  intros Hwf. split.
  - exists (formGD_result increment xHFX s).
    split; [by apply formGD_eq|by apply well_formed_formGD_result].
  - exists (formFock_result pert increment xHFX s).
    split; [by apply formFock_eq|by apply well_formed_formFock_result].
Qed.

Lemma Fock_build_keeps_well_formed_witness :
  ∃ s', formFock (CE := core_as_real) (MkPert [(0, (1 / dbl 2)%Qc)])
          true (dbl 1) ss_z = Ok s' ∧ well_formed s'.
Proof.
  exact (proj2 (Fock_build_keeps_well_formed (CE := core_as_real)
                  (MkPert [(0, (1 / dbl 2)%Qc)]) true (dbl 1) ss_z
                  ss_z_well_formed)).
Defined.

(** X11.  [formGD] writes [GD], [JScalar], and [K] only: on a well-formed
    state it returns with the integrals, both densities and the Fock
    buffers exactly as they were.  For [T = double] it does not use the
    allocator at all: the pool is as on entry and the only thing asked of a
    collaborator is the one call of the contraction engine. *)
Theorem formGD_frame {T H : Type} {SC : Scalar T}
    (increment : bool) (xHFX : double) (s : SingleSlater T H) :
  well_formed s →
  ∃ s', formGD increment xHFX s = Ok s' ∧
        aoints s' = aoints s ∧ onePDM s' = onePDM s ∧
        deltaOnePDM s' = deltaOnePDM s ∧ fock s' = fock s ∧
        (is_double (T := T) = true →
         memManager s' = memManager s ∧
         ∃ l, trace s' = trace s ++ [EvTwoBodyContract l]).
Proof.
  intros Hwf. exists (formGD_result increment xHFX s).
  split; [by apply formGD_eq|].
  unfold formGD_result. state_fields. do 4 (split; [done|]).
  intros Hd. unfold memManager_after, events. rewrite Hd.
  split; [done|]. by eexists.
Qed.

Lemma formGD_frame_witness :
  ∃ s', formGD true (dbl 1) ss_d = Ok s' ∧
        fock s' = fock ss_d ∧ memManager s' = memManager ss_d.
Proof.
  destruct (formGD_frame (H := double) true (dbl 1) ss_d ss_d_well_formed)
    as (s' & Hrun & _ & _ & _ & HF & Hd).
  exists s'. split; [exact Hrun|]. split; [exact HF|].
  exact (proj1 (Hd eq_refl)).
Defined.



(** X13.  For every call to [formGD] with [|xHFX| > 1e-12] on a well-formed
    state the exchange buffers end as follows, element by element: with
    [increment = false] as the exchange contraction of the density
    [onePDM[i]], whatever [K[i]] held before; with [increment = true] as
    what [K[i]] held before plus the exchange contraction of the change of
    density [deltaOnePDM[i]]. *)
Theorem formGD_exchange_buffers {T H : Type} {SC : Scalar T}
    (increment : bool) (xHFX : double) (s : SingleSlater T H) :
  well_formed s → (thr_xHFX < Qcabs xHFX)%Qc →
  ∃ s', formGD increment xHFX s = Ok s' ∧
        length (K s') = length (K s) ∧
        ∀ i k kb kv, K s !! i = Some kb → kb !! k = Some kv →
          ∃ kb', K s' !! i = Some kb' ∧
                 kb' !! k
                 = Some (if increment
                         then sc_add kv (twoBody (aoints s) EXCHANGE
                                           (default [] (deltaOnePDM s !! i)) k)
                         else twoBody (aoints s) EXCHANGE
                                (default [] (onePDM s !! i)) k).
Proof.
  intros Hwf Hx.
  assert (exceeds xHFX thr_xHFX = true) as Hex
    by by apply bool_decide_eq_true.
  pose proof Hwf as (_ & _ & _ & _ & _ & HsK & _).
  exists (formGD_result increment xHFX s).
  split; [by apply formGD_eq|].
  unfold formGD_result. state_fields.
  split; [apply length_K_after|].
  intros i k kb kv Hkb Hkv.
  destruct (K_after_lookup increment xHFX s i k kb kv Hex HsK Hkb Hkv)
    as (kb' & Hkb' & _ & Hk).
  by exists kb'.
Qed.

Lemma one_exceeds : (thr_xHFX < Qcabs (dbl 1))%Qc.
Proof. by vm_compute. Qed.

Lemma formGD_exchange_buffers_witness :
  ∃ s', formGD true (dbl 1) ss_d = Ok s' ∧ length (K s') = length (K ss_d).
Proof.
  destruct (formGD_exchange_buffers (H := double) true (dbl 1) ss_d
              ss_d_well_formed one_exceeds) as (s' & Hrun & Hlen & _).
  exists s'. split; [exact Hrun|exact Hlen].
Defined.



(** X15.  When [T] is not [double] and the pool cannot serve the [NB*NB]
    elements of the transient Coulomb buffer, [formGD] stops at the
    allocation, before anything is zeroed or contracted; so does
    [formFock], which starts with [formGD]. *)
Theorem formGD_pool_exhausted {T H : Type} {SC : Scalar T}
    {CE : CoreElement H} (pert : EMPerturbation) (increment : bool)
    (xHFX : double) (s : SingleSlater T H) :
  is_double (T := T) = false →
  available (memManager s) < nBasis (aoints s) * nBasis (aoints s) →
  formGD increment xHFX s = Halt AllocationFailed ∧
  formFock pert increment xHFX s = Halt AllocationFailed.
Proof.
  intros Hd Hpool.
  assert (formGD increment xHFX s = Halt AllocationFailed) as HGD.
  { unfold formGD, formGD_contract, formGD_JContract, malloc, mem_malloc.
    rewrite Hd. by rewrite decide_False by lia. }
  split; [done|]. unfold formFock. by rewrite HGD.
Qed.

Lemma formGD_pool_exhausted_witness :
  formGD false (dbl 1) (set_memManager (MkMem 3 [] (λ _, (dbl 8, dbl 8))) ss_z)
  = Halt AllocationFailed.
Proof.
  refine (proj1 (formGD_pool_exhausted (CE := core_as_real) (MkPert []) false
                   (dbl 1)
                   (set_memManager (MkMem 3 [] (λ _, (dbl 8, dbl 8))) ss_z)
                   eq_refl _)).
  simpl; lia.
Defined.

(** ** The Fock build: what a full build depends on, incremental builds *)

Section Incremental.
Context {T H : Type} {SC : Scalar T} {CE : CoreElement H}.

Variables (xHFX : double) (D2 dD : list (list T)).

(** [s]: the state of the full build on the old density; [s2]: the state
    in which the incremental build is asked for; [s3]: the state in which
    a full build on the new density is asked for. *)
Variables s s2 s3 : SingleSlater T H.

Hypothesis Hwf : well_formed s.
Hypothesis Hadd : additive_on (aoints s) (length (fock s)) (onePDM s) dD D2.
Hypothesis Hao2 : aoints s2 = aoints s.
Hypothesis Hao3 : aoints s3 = aoints s.
Hypothesis HK2 : K s2 = K_after false xHFX s.
Hypothesis HK3 : K s3 = K s.
Hypothesis HJ2 : JScalar s2 = JScalar_after false s.
Hypothesis HJ3 : JScalar s3 = JScalar s.
Hypothesis HdD : deltaOnePDM s2 = dD.
Hypothesis HD2 : onePDM s3 = D2.

Lemma incremental_K : K_after true xHFX s2 = K_after false xHFX s3.
Proof.
  pose proof Hwf as (_ & _ & _ & _ & _ & HsK & _ & _ & _ & _ & _ & HK & _).
  unfold K_after at 1 2. rewrite HK2, HK3. unfold K_after.
  destruct (exceeds xHFX thr_xHFX); [|done].
  apply list_eq. intros i. rewrite !list_lookup_imap.
  destruct (K s !! i) as [kb|] eqn:Hkb; [|done].
  assert (i < length (fock s)) as Hi.
  { apply lookup_lt_Some in Hkb. lia. }
  cbn [fmap option_fmap option_map]. f_equal.
  unfold contracted, density_at.
  rewrite Hao2, Hao3, HdD, HD2, (NB2_same _ _ Hao3).
  apply list_eq. intros k. rewrite !list_lookup_imap.
  destruct (zeros (NB2 s) !! k) as [z|] eqn:Hz; [|done].
  apply lookup_replicate_1 in Hz as [-> _].
  cbn [fmap option_fmap option_map]. f_equal.
  unfold sc_zero. rewrite !sc_add_0_l. symmetry. by apply Hadd.
Qed.

Lemma incremental_JScalar :
  JScalar_after true s2 = JScalar_after false s3.
Proof.
  pose proof Hwf as (_ & _ & HJ & _ & _ & _ & _ & _ & _ & Hpos & _).
  assert (length (JScalar s2) = NB2 s2) as HlJ2.
  { rewrite HJ2, (NB2_same _ _ Hao2). by apply length_JScalar_after. }
  assert (length (JScalar s3) = NB2 s3) as HlJ3.
  { by rewrite HJ3, (NB2_same _ _ Hao3). }
  apply list_eq. intros k.
  destruct (decide (k < NB2 s)) as [Hk|Hk].
  - destruct (lookup_lt_is_Some_2 (JScalar s) k) as [j0 Hj0]; [lia|].
    pose proof (JScalar_after_lookup false s k j0 HJ Hj0) as Hfirst.
    rewrite <-HJ2 in Hfirst. rewrite <-HJ3 in Hj0.
    rewrite (JScalar_after_lookup true s2 k _ HlJ2 Hfirst).
    rewrite (JScalar_after_lookup false s3 k j0 HlJ3 Hj0).
    f_equal. unfold density_at. rewrite Hao2, Hao3, HdD, HD2.
    rewrite (Hadd COULOMB SCALAR k Hpos), re_add. apply Qcplus_comm.
  - rewrite !lookup_ge_None_2; [done| |].
    + rewrite length_JScalar_after by done.
      rewrite (NB2_same _ _ Hao3). lia.
    + rewrite length_JScalar_after by done.
      rewrite (NB2_same _ _ Hao2). lia.
Qed.
End Incremental.


Lemma ao_d_additive :
  additive_on ao_d 1 [dbls [1; 2; 3; 4]%Z] [dbls [1; 1; 1; 1]%Z]
    [dbls [2; 3; 4; 5]%Z].
Proof.
  intros kind i k Hi. assert (i = 0) as -> by lia.
  destruct kind; do 4 (destruct k as [|k]; [qc_eq|]); qc_eq.
Qed.




(** ** RealTime<_SSTyp,T>::formFock: the state it leaves *)

(** X18.  [RealTime::formFock] on a well-formed propagator returns; it
    leaves the perturbation source and the stored time [curState.xTime] as
    they were; the propagator is the one that [SingleSlater::formFock]
    leaves when it is given the field of the stored time, the increment
    flag and the default [xHFX], and it is well formed again; and the
    outcome is the same for every value of the parameter [t]. *)
Theorem RealTime_formFock_state {T H : Type} {SC : Scalar T}
    {CE : CoreElement H} (default_xHFX : double) (rt : RealTime T H)
    (increment : bool) (t : double) :
  well_formed (propagator_ rt) →
  ∃ rt', RealTime_formFock default_xHFX rt increment t = Ok rt' ∧
         pert rt' = pert rt ∧ curState_xTime rt' = curState_xTime rt ∧
         formFock (getPert (pert rt) (curState_xTime rt)) increment
           default_xHFX (propagator_ rt) = Ok (propagator_ rt') ∧
         well_formed (propagator_ rt') ∧
         ∀ t', RealTime_formFock default_xHFX rt increment t' = Ok rt'.
Proof.
  intros Hwf. unfold RealTime_formFock, RealTime_formFock_call. cbn [fst snd].
  rewrite formFock_eq by done. eexists. split; [done|].
  cbn [pert curState_xTime propagator_].
  do 3 (split; [done|]).
  split; [by apply well_formed_formFock_result|done].
Qed.

Lemma RealTime_formFock_state_witness :
  ∃ rt', RealTime_formFock (CE := core_as_real) (dbl 1) rt_ramp true (dbl 1)
         = Ok rt' ∧
         curState_xTime rt' = dbl 0 ∧
         ∀ t', RealTime_formFock (CE := core_as_real) (dbl 1) rt_ramp true t'
               = Ok rt'.
Proof.
  destruct (RealTime_formFock_state (CE := core_as_real) (dbl 1) rt_ramp true
              (dbl 1) ss_z_well_formed)
    as (rt' & Hrun & _ & Htime & _ & _ & Hall).
  exists rt'. split; [exact Hrun|]. split; [exact Htime|exact Hall].
Defined.

(** ** The Fock matrix of a real closed-shell build *)

(** An equation between [double]s, by the ring of rationals. *)
Ltac double_ring :=
  match goal with |- @eq _ ?a ?b => change (@eq Qc a b) end; ring.



(** ** The one call of the contraction engine *)

(** What a build adds to the trace holds one call of the engine. *)
Lemma events_one_call {T H : Type} {SC : Scalar T} (increment : bool)
    (xHFX : double) (s : SingleSlater T H) :
  ∃ pre post,
    events increment xHFX s
    = pre ++ [EvTwoBodyContract (requests increment xHFX s)] ++ post ∧
    Forall (λ e, ∀ l, e ≠ EvTwoBodyContract l) pre ∧
    Forall (λ e, ∀ l, e ≠ EvTwoBodyContract l) post.
Proof.
  unfold events. destruct (is_double (T := T)).
  - exists [], []. by repeat split.
  - eexists [_], [_]. split; [done|]. by split; repeat constructor.
Qed.

(** X20.  [formGD] hands all its contractions to the engine in one call.
    With [|xHFX| > 1e-12] on a well-formed state, what the call adds to the
    trace holds exactly one call of the engine; its list of requests has
    one entry more than there are exchange buffers; the first is the
    Coulomb contraction of the scalar density into [JContract], and entry
    [1 + i] is the exchange contraction of density [i] into [K[i]]; every
    request has the accumulate flag set, and the densities are those of
    [deltaOnePDM] when incrementing and of [onePDM] otherwise. *)
Theorem formGD_one_batched_call {T H : Type} {SC : Scalar T}
    (increment : bool) (xHFX : double) (s : SingleSlater T H) :
  well_formed s → (thr_xHFX < Qcabs xHFX)%Qc →
  ∃ s' pre l post,
    formGD increment xHFX s = Ok s' ∧
    trace s' = trace s ++ pre ++ [EvTwoBodyContract l] ++ post ∧
    Forall (λ e, ∀ l', e ≠ EvTwoBodyContract l') pre ∧
    Forall (λ e, ∀ l', e ≠ EvTwoBodyContract l') post ∧
    length l = 1 + length (K s) ∧
    l !! 0
    = Some (MkContraction
              (default [] ((if increment then deltaOnePDM s else onePDM s)
                             !! SCALAR))
              (if is_double (T := T) then JScalarPtr
               else PoolPtr (length (blocks (memManager s))))
              true COULOMB) ∧
    ∀ i, i < length (K s) →
         l !! (1 + i)
         = Some (MkContraction
                   (default [] ((if increment then deltaOnePDM s
                                 else onePDM s) !! i))
                   (KPtr i) true EXCHANGE).
Proof.
  intros Hwf Hx.
  assert (exceeds xHFX thr_xHFX = true) as Hex
    by by apply bool_decide_eq_true.
  destruct (events_one_call increment xHFX s) as (pre & post & Hev & Hpre
                                                  & Hpost).
  exists (formGD_result increment xHFX s), pre, (requests increment xHFX s),
    post.
  split; [by apply formGD_eq|].
  split; [by unfold formGD_result; state_fields; rewrite Hev|].
  split; [done|]. split; [done|].
  unfold requests. rewrite Hex.
  split; [by cbn [length]; rewrite length_imap|].
  split; [done|].
  intros i Hi. etrans; [apply (list_lookup_imap _ (K s) i)|].
  by destruct (lookup_lt_is_Some_2 (K s) i Hi) as [kb ->].
Qed.

Lemma formGD_one_batched_call_witness :
  ∃ s' pre l post,
    formGD true (dbl 1) ss_z = Ok s' ∧
    trace s' = trace ss_z ++ pre ++ [EvTwoBodyContract l] ++ post ∧
    length l = 1 + length (K ss_z).
Proof.
  destruct (formGD_one_batched_call (H := double) true (dbl 1) ss_z
              ss_z_well_formed one_exceeds)
    as (s' & pre & l & post & Hrun & Htrace & _ & _ & Hlen & _).
  exists s', pre, l, post.
  split; [exact Hrun|]. split; [exact Htrace|exact Hlen].
Defined.
